(** * Stoic examples: a shallow embedding of [before.cpp] and [after.cpp]

    The two files are flat lists of paired snippets.  Each snippet that
    computes something is translated below into a Rocq function, in the
    order of the source; [Module Before] holds the functions of
    [before.cpp], [Module After] those of [after.cpp].  Conventions:

    - [int] is a 32-bit signed integer carried by [Z]; an operation whose
      mathematical result leaves the range is undefined behaviour in C++
      and yields the verdict [Undefined SignedOverflow];
    - [unsigned char] is carried by [Z] reduced modulo 256, [size_t] by [Z]
      reduced modulo 2^64;
    - undefined behaviour is an explicit verdict of type [outcome], never a
      silent default value;
    - a [std::vector] is a list, a [std::map] a finite map, a
      [std::unique_ptr] and a raw pointer an [option] ([None] is the null
      pointer);
    - a namespace-scope variable is threaded explicitly: a function that
      touches it takes its value and returns the new one. *)

From Stdlib Require Import ZArith Lia Bool SpecFloat.
From stdpp Require Import gmap strings list fin_maps.

Local Open Scope Z_scope.

(** ** Verdicts of an evaluation *)

Inductive undefined : Set :=
| SignedOverflow
| DivisionByZero
| OutOfRange
| NullDereference
| UnsequencedModification.

Inductive outcome (A : Type) : Type :=
| Ok (a : A)
| Undefined (why : undefined).

Arguments Ok {A} a.
Arguments Undefined {A} why.

#[global] Instance outcome_ret : MRet outcome := fun A a => Ok a.

#[global] Instance outcome_bind : MBind outcome := fun A B k c =>
  match c with
  | Ok a => k a
  | Undefined why => Undefined why
  end.

Definition defined {A} (c : outcome A) : Prop := exists a, c = Ok a.

(** ** Arithmetic types *)

Module Int.

Definition min : Z := - 2 ^ 31.
Definition max : Z := 2 ^ 31 - 1.

Definition in_range (z : Z) : bool := (min <=? z) && (z <=? max).

(** The result of an arithmetic operator on [int] operands. *)
Definition checked (z : Z) : outcome Z :=
  if in_range z then Ok z else Undefined SignedOverflow.

Definition add (a b : Z) : outcome Z := checked (a + b).
Definition sub (a b : Z) : outcome Z := checked (a - b).
Definition mul (a b : Z) : outcome Z := checked (a * b).

(** [a / b]: truncation toward zero; a zero divisor is undefined. *)
Definition div (a b : Z) : outcome Z :=
  if b =? 0 then Undefined DivisionByZero else checked (Z.quot a b).

(** [static_cast<int>(n)] for a [size_t] value [n]: reduction modulo 2^32
    into the signed range. *)
Definition of_size (n : Z) : Z := (n + 2 ^ 31) mod 2 ^ 32 - 2 ^ 31.

End Int.

Module UChar.

Definition modulus : Z := 256.
Definition max : Z := 255.

(** Conversion of an integer to [unsigned char]. *)
Definition of_Z (z : Z) : Z := z mod modulus.

(** [a += b] and [++a]: the operands are promoted to [int], the result is
    converted back. *)
Definition add (a b : Z) : Z := of_Z (a + b).

(** [a / b]: both operands are promoted to [int]. *)
Definition div (a b : Z) : outcome Z :=
  if b =? 0 then Undefined DivisionByZero else Ok (of_Z (Z.quot a b)).

End UChar.

Module Size.

Definition modulus : Z := 2 ^ 64.

(** Conversion of an [int] to [size_t]. *)
Definition of_int (i : Z) : Z := i mod modulus.

End Size.

(** What a template needs from its type parameter. *)

Class Greater (T : Type) := T_gt : T -> T -> bool.

Class Times (T : Type) := T_mul : T -> T -> outcome T.

Class Numeric (T : Type) := {
  T_zero : T;                       (* T{} *)
  T_add : T -> T -> outcome T;      (* a += b *)
  T_div : T -> T -> outcome T;      (* a / b *)
  T_of_size : Z -> T                (* static_cast<T>(n), n a size_t *)
}.

#[global] Instance int_greater : Greater Z := Z.gtb.

#[global] Instance int_times : Times Z := Int.mul.

Definition int_numeric : Numeric Z := {|
  T_zero := 0;
  T_add := Int.add;
  T_div := Int.div;
  T_of_size := Int.of_size
|}.

Definition uchar_numeric : Numeric Z := {|
  T_zero := 0;
  T_add := fun a b => Ok (UChar.add a b);
  T_div := UChar.div;
  T_of_size := UChar.of_Z
|}.

(** ** Standard containers *)

(** [v.size()] *)
Definition vector_size {A} (v : list A) : Z := Z.of_nat (length v).

(** [v[i]] for a [size_t] index: no bounds check is made, an index past
    the end is undefined. *)
Definition vector_index {A} (v : list A) (i : Z) : outcome A :=
  if i <? 0 then Undefined OutOfRange
  else match v !! Z.to_nat i with
       | Some x => Ok x
       | None => Undefined OutOfRange
       end.

(** [std::map<std::string,int>::operator[]]: a missing key is inserted with
    a value-initialised [int]; the result is the mapped value (the
    reference returned is the key itself in this embedding) and the map
    after the call. *)
Definition subscript (name : string) (counters : gmap string Z)
  : Z * gmap string Z :=
  match counters !! name with
  | Some v => (v, counters)
  | None => (0, <[name := 0]> counters)
  end.

(** Every stored value is an [int]. *)
Definition counters_wf (counters : gmap string Z) : Prop :=
  map_Forall (fun _ v => Int.min <= v <= Int.max) counters.

(** ** Calling conventions *)

(** A function body acts on its parameter object: it returns a value and
    leaves the parameter in a final state.  Passed by value, the parameter
    is a copy, and the caller's object stays what it was; passed by
    reference, the parameter is the caller's object. *)
Definition call_by_value {S R} (body : S -> outcome (R * S)) (caller : S)
  : outcome (R * S) :=
  '(r, _) ← body caller;
  Ok (r, caller).

Definition call_by_reference {S R} (body : S -> outcome (R * S)) (caller : S)
  : outcome (R * S) :=
  body caller.

(** An argument expression of a call or of a macro: evaluating it yields a
    value and may change the local variables [S]. *)
Definition expression (S A : Type) : Type := S -> outcome (A * S).

(** The text handed to a macro whose expansion uses it in two operands of
    one operator.  Such operands are unsequenced, so the text matters beyond
    its value: [modifies_scalar] tells whether it writes a scalar object
    itself, as [x++] or [x = 7] does; a side effect made inside a function
    it calls is indeterminately sequenced and does not count. *)
Record macro_argument (S A : Type) : Type :=
  { evaluate : expression S A; modifies_scalar : bool }.
Arguments evaluate {S A} _.
Arguments modifies_scalar {S A} _.

(** What the argument of an [int&] parameter, or of an [int*] parameter
    when it is not null, designates: an [int] object of the caller, given by
    its value, or the element [counters[key]] of the namespace-scope map. *)
Inductive int_reference : Type :=
| Caller_int (value : Z)
| Counter_element (key : string).

(** ** Output and programs *)

(** What is written to [std::cout], in order. *)
Inductive token : Set :=
| Str (s : string)
| Num (z : Z)
| Endl.

(** A function call seen from the whole program: it starts from the
    namespace-scope variables [G], and either is undefined or yields a
    value, the variables after the call and what it wrote to [std::cout]. *)
Definition program (G A : Type) : Type := G -> outcome (A * G * list token).

(** A call that touches no namespace-scope variable and writes nothing. *)
Definition pure {G A} (c : outcome A) : program G A := fun g =>
  a ← c;
  Ok (a, g, []).

(** A call that only writes to [std::cout]. *)
Definition printing {G} (c : outcome (list token)) : program G unit := fun g =>
  out ← c;
  Ok (tt, g, out).

(** The value and the output of a call, without the variables. *)
Definition observed {G A} (c : outcome (A * G * list token))
  : outcome (A * list token) :=
  '(a, _, out) ← c;
  Ok (a, out).

(** The thirteen snippet categories, and the bonus snippet of after.cpp. *)
Inductive category : Set :=
| Ownership
| Macros
| Constants
| HeaderCoupling
| OwnershipTransfer
| ConditionalCompilation
| TypeAliasing
| CompileTimeEvaluation
| UndefinedBehaviorDocumentation
| AssociativeContainerAccess
| ValueSemanticsIntent
| NumericRangeDocumentation
| PlatformConditionals
| Bonus.

#[global] Instance category_eq_dec : EqDecision category.
Proof. solve_decision. Defined.

(** [double]: IEEE 754 binary64, with its rounding multiplication. *)
Definition double : Set := spec_float.

Definition double_mul (a b : double) : double := SFmul 53 1024 a b.

(** ** Helper declarations (bottom of both files) *)

Definition someCondition : bool := false.

(** [void process(int* p) {}] *)
Definition process {A} (p : option (list A)) : unit := tt.

Definition expensiveComputation : Z := 42.

(** [double radius = 1.0;] *)
Definition radius_initial : double := S754_finite false (2 ^ 52) (-52).

(** [class Item {};] *)
Inductive Item : Set := item.

Definition doFeatureX : unit := tt.

Definition doAlternative : unit := tt.

(** [int parseConfigFile(const char* path) { return 0; }] *)
Definition parseConfigFile (path : option string) : Z := 0.

Definition getUserInput : Z := 42.

(** [struct GameState], the same in both files. *)
Module GameState.

Record t : Type := { score : Z; moves : list Z }.

(** [void applyMove(int m) { moves.push_back(m); score += m; }] *)
Definition applyMove (m : Z) (state : t) : outcome t :=
  let moves1 := moves state ++ [m] in
  score1 ← Int.add (score state) m;
  Ok {| score := score1; moves := moves1 |}.

End GameState.

(** The local variables [x] and [y] of [macroProblems] and
    [noMacroProblems], with the number of calls made to
    [expensiveComputation]. *)
Module Locals.

Record t : Type := { x : Z; y : Z; calls : nat }.

(** [x++] *)
Definition post_increment_x : expression t Z := fun s =>
  x1 ← Int.add (x s) 1;
  Ok (x s, {| x := x1; y := y s; calls := calls s |}).

(** [y] *)
Definition read_y : expression t Z := fun s => Ok (y s, s).

(** [expensiveComputation()] *)
Definition call_expensiveComputation : expression t Z := fun s =>
  Ok (expensiveComputation, {| x := x s; y := y s; calls := S (calls s) |}).

End Locals.

(** ** [before.cpp] *)

Module Before.

(** *** MISTAKE 1: manual memory management *)

Module ResourceManager.

(** [int* data] is given by the array it points to; [new int[n]] leaves
    the elements indeterminate, written [None]. *)
Record t : Type := { data : list (option Z); size : Z }.

Definition make (n : Z) : t :=
  {| data := replicate (Z.to_nat n) None; size := n |}.

Definition process (rm : t) : unit :=
  if size rm =? 0 then tt else tt.

(** [~ResourceManager() { delete[] data; }] *)
Definition destroy (rm : t) : unit := tt.

End ResourceManager.

Definition leakyFunction : unit :=
  let buffer := replicate 100 (@None Z) in
  if someCondition then tt
  else process (Some buffer).

(** *** MISTAKE 2: function-like macros *)

(** [#define MAX(a, b) ((a) > (b) ? (a) : (b))]: the argument texts are
    pasted, so the selected one is evaluated a second time. *)
Definition MAX {S} (a b : expression S Z) : expression S Z := fun s =>
  '(va, s1) ← a s;
  '(vb, s2) ← b s1;
  if va >? vb then a s2 else b s2.

(** [#define SQUARE(x) ((x) * (x))]: the two copies of the argument are
    the operands of [*], which are unsequenced.  An argument that modifies
    a scalar does so twice without sequencing, which is undefined; any other
    argument is evaluated twice, in either order with the same result. *)
Definition SQUARE {S} (x : macro_argument S Z) : expression S Z := fun s =>
  if modifies_scalar x then Undefined UnsequencedModification
  else
    '(v1, s1) ← evaluate x s;
    '(v2, s2) ← evaluate x s1;
    r ← Int.mul v1 v2;
    Ok (r, s2).

(** [int x = 5; int y = 3; int max_val = MAX(x++, y);
     int squared = SQUARE(expensiveComputation());]: the values of
    [max_val] and [squared] and the final locals. *)
Definition macroProblems : outcome (Z * Z * Locals.t) :=
  let s0 := {| Locals.x := 5; Locals.y := 3; Locals.calls := 0 |} in
  '(max_val, s1) ← MAX Locals.post_increment_x Locals.read_y s0;
  '(squared, s2) ← SQUARE {| evaluate := Locals.call_expensiveComputation;
                             modifies_scalar := false |} s1;
  Ok (max_val, squared, s2).

(** *** MISTAKE 3: constant macros *)

(** [3.14159265358979], that is [0x1.921fb54442d11p+1] *)
Definition PI : double := S754_finite false 0x1921fb54442d11 (-51).

Definition BUFFER_SIZE : Z := 1024.

Definition ERROR_MESSAGE : string := "An error occurred".

(** [double area = PI * radius * radius; char buffer[BUFFER_SIZE];] *)
Definition useConstants (radius : double) : unit :=
  let area := double_mul (double_mul PI radius) radius in
  let buffer := replicate (Z.to_nat BUFFER_SIZE) (@None Z) in
  tt.

(** *** MISTAKE 4: macros leaking from headers *)

Definition ERROR : Z := 1.

Definition SUCCESS : Z := 0.

(** *** MISTAKE 5: ownership ambiguity *)

Module Container.

(** [Item* items] is null or given by the array it points to. *)
Record t : Type := { items : option (list Item); count : Z }.

(** [Container() : items(nullptr), count(0) {}] *)
Definition default : t := {| items := None; count := 0 |}.

(** The body of [add] is empty. *)
Definition add (it : option Item) (c : t) : t := c.

(** [return items + index;]: the pointer returned is null or given by the
    position it points to.  Adding to a null pointer is defined for 0 only,
    adding to a pointer into an array up to one past its end. *)
Definition get (index : Z) (c : t) : outcome (option Z) :=
  match items c with
  | None => if index =? 0 then Ok None else Undefined OutOfRange
  | Some array =>
      if (0 <=? index) && (index <=? vector_size array) then Ok (Some index)
      else Undefined OutOfRange
  end.

(** [~Container() { delete[] items; }] *)
Definition destroy (c : t) : unit := tt.

End Container.

(** *** MISTAKE 6: preprocessor logic *)

(** [#define USE_FEATURE_X 1] *)
Definition USE_FEATURE_X : option Z := Some 1.

(** [#ifdef USE_FEATURE_X] *)
Definition conditionalCode : unit :=
  match USE_FEATURE_X with
  | Some _ => doFeatureX
  | None => doAlternative
  end.

(** *** MISTAKE 8: over-applied [constexpr] *)

(** The declarations that the file itself marks as failing to compile
    ([getName], [getNumbers], [config], [DataProcessor], [runtimeFunction])
    have no behaviour to translate. *)
Definition compute (x : Z) : outcome Z := Int.mul x 2.

(** *** MISTAKE 9: undocumented preconditions *)

(** [UnsafeContainer<int>]: [T* data] is given by the array it points to. *)
Module UnsafeContainer.

Record t : Type := { data : list Z; count : Z }.

Definition at_ (index : Z) (c : t) : outcome Z :=
  vector_index (data c) index.

Definition front (c : t) : outcome Z :=
  vector_index (data c) 0.

(** [for (size_t i = 0; i < count; ++i) sum += data[i];] with [n]
    iterations left. *)
Fixpoint accumulate (n : nat) (i : Z) (sum : Z) (c : t) : outcome Z :=
  match n with
  | O => Ok sum
  | S n' =>
      x ← vector_index (data c) i;
      sum' ← Int.add sum x;
      accumulate n' (i + 1) sum' c
  end.

(** [return sum / count;]: [count] is a [size_t], so [sum] is converted to
    [size_t], the division is unsigned and its result is converted back to
    [int]. *)
Definition average (c : t) : outcome Z :=
  sum ← accumulate (Z.to_nat (count c)) 0 0 c;
  if count c =? 0 then Undefined DivisionByZero
  else Ok (Int.of_size (Size.of_int sum / count c)).

End UnsafeContainer.

(** [std::cout << v[index];] *)
Definition processIndex (v : list Z) (index : Z) : outcome (list token) :=
  x ← vector_index v index;
  Ok [Num x].

(** [*ptr = 42;]: the pointed-to [int] after the call. *)
Definition processPointer (ptr : option Z) : outcome Z :=
  match ptr with
  | Some _ => Ok 42
  | None => Undefined NullDereference
  end.

(** *** MISTAKE 10: map insertion through [operator[]] *)

(** [counters[name]++;] *)
Definition incrementCounter (name : string) (counters : gmap string Z)
  : outcome (gmap string Z) :=
  let '(v, counters1) := subscript name counters in
  v' ← Int.add v 1;
  Ok (<[name := v']> counters1).

(** [return counters[name];] *)
Definition getCounter (name : string) (counters : gmap string Z)
  : Z * gmap string Z :=
  subscript name counters.

(** *** MISTAKE 11: undocumented intentional copy *)

Definition tryMove_body (move : Z) (state : GameState.t)
  : outcome (bool * GameState.t) :=
  state1 ← GameState.applyMove move state;
  if GameState.score state1 <? 0 then Ok (false, state1)
  else Ok (true, state1).

(** [bool tryMove(GameState state, int move)]: the result and the caller's
    object after the call. *)
Definition tryMove (state : GameState.t) (move : Z)
  : outcome (bool * GameState.t) :=
  call_by_value (tryMove_body move) state.

(** *** MISTAKE 12: undocumented type limits *)

(** [for (int i = 0; i < 1000; ++i) { }]: the number of iterations made,
    [None] when the fuel runs out first. *)
Fixpoint planRoute_loop (fuel : nat) (i : Z) (iterations : nat) : option nat :=
  match fuel with
  | O => None
  | S fuel' =>
      if i <? 1000 then planRoute_loop fuel' (i + 1) (S iterations)
      else Some iterations
  end.

Definition planRoute (fuel : nat) (maxSteps : Z) : option nat :=
  planRoute_loop fuel 0 0.

(** *** MISTAKE 13: undocumented platform-specific code *)

Definition platformSpecificInit (msc_ver : bool) : unit :=
  if msc_ver then tt else tt.

(** *** The program as a whole *)

(** The namespace-scope variables that are not [const]: [counters]
    (MISTAKE 10) and [radius] (helper declarations). *)
Record Globals : Type := { counters : gmap string Z; radius : double }.

Definition initial : Globals :=
  {| counters := ∅; radius := radius_initial |}.

(** A call that reads and writes [counters] only. *)
Definition on_counters {A} (f : gmap string Z -> outcome (A * gmap string Z))
  : program Globals A := fun g =>
  '(a, counters1) ← f (counters g);
  Ok (a, {| counters := counters1; radius := radius g |}, []).

(** A call that reads [radius] only. *)
Definition reading_radius {A} (f : double -> A) : program Globals A := fun g =>
  Ok (f (radius g), g, []).

(** A call whose body [f] acts on the [int] that [target] designates: it
    yields the value of that object after the call.  For [counters[key]] the
    caller's subscript comes first, and the object is in the map. *)
Definition through (target : int_reference) (f : Z -> outcome Z)
  : program Globals Z :=
  match target with
  | Caller_int value => pure (f value)
  | Counter_element key =>
      on_counters (fun m =>
        let '(old, m1) := subscript key m in
        new ← f old;
        Ok (new, <[key := new]> m1))
  end.

(** The same for a pointer, which may be null. *)
Definition through_pointer (ptr : option int_reference)
  (f : option Z -> outcome Z) : program Globals Z :=
  match ptr with
  | Some target => through target (fun value => f (Some value))
  | None => pure (f None)
  end.

Inductive operation : Type :=
| ResourceManager_make (n : Z)
| ResourceManager_process (rm : ResourceManager.t)
| ResourceManager_destroy (rm : ResourceManager.t)
| LeakyFunction
| MacroProblems
| UseConstants
| Container_add (it : option Item) (c : Container.t)
| Container_get (index : Z) (c : Container.t)
| Container_destroy (c : Container.t)
| ConditionalCode
| Compute (x : Z)
| UnsafeContainer_at (index : Z) (c : UnsafeContainer.t)
| UnsafeContainer_front (c : UnsafeContainer.t)
| UnsafeContainer_average (c : UnsafeContainer.t)
| ProcessIndex (v : list Z) (index : Z)
| ProcessPointer (ptr : option int_reference)
| IncrementCounter (name : string)
| GetCounter (name : string)
| GameState_applyMove (m : Z) (state : GameState.t)
| TryMove (state : GameState.t) (move : Z)
| PlanRoute (fuel : nat) (maxSteps : Z)
| PlatformSpecificInit (msc_ver : bool).

Definition category_of (op : operation) : category :=
  match op with
  | ResourceManager_make _ | ResourceManager_process _
  | ResourceManager_destroy _ | LeakyFunction => Ownership
  | MacroProblems => Macros
  | UseConstants => Constants
  | Container_add _ _ | Container_get _ _
  | Container_destroy _ => OwnershipTransfer
  | ConditionalCode => ConditionalCompilation
  | Compute _ => CompileTimeEvaluation
  | UnsafeContainer_at _ _ | UnsafeContainer_front _
  | UnsafeContainer_average _ | ProcessIndex _ _
  | ProcessPointer _ => UndefinedBehaviorDocumentation
  | IncrementCounter _ | GetCounter _ => AssociativeContainerAccess
  | GameState_applyMove _ _ | TryMove _ _ => ValueSemanticsIntent
  | PlanRoute _ _ => NumericRangeDocumentation
  | PlatformSpecificInit _ => PlatformConditionals
  end.

Definition result (op : operation) : Type :=
  match op with
  | ResourceManager_make _ => ResourceManager.t
  | MacroProblems => Z * Z * Locals.t
  | Container_add _ _ => Container.t
  | Container_get _ _ => option Z
  | Compute _ | UnsafeContainer_at _ _ | UnsafeContainer_front _
  | UnsafeContainer_average _ | ProcessPointer _ | GetCounter _ => Z
  | GameState_applyMove _ _ => GameState.t
  | TryMove _ _ => bool * GameState.t
  | PlanRoute _ _ => option nat
  | ResourceManager_process _ | ResourceManager_destroy _ | LeakyFunction
  | UseConstants | Container_destroy _ | ConditionalCode | ProcessIndex _ _
  | IncrementCounter _ | PlatformSpecificInit _ => unit
  end.

Definition run (op : operation) : program Globals (result op) :=
  match op return program Globals (result op) with
  | ResourceManager_make n => pure (Ok (ResourceManager.make n))
  | ResourceManager_process rm => pure (Ok (ResourceManager.process rm))
  | ResourceManager_destroy rm => pure (Ok (ResourceManager.destroy rm))
  | LeakyFunction => pure (Ok leakyFunction)
  | MacroProblems => pure macroProblems
  | UseConstants => reading_radius useConstants
  | Container_add it c => pure (Ok (Container.add it c))
  | Container_get index c => pure (Container.get index c)
  | Container_destroy c => pure (Ok (Container.destroy c))
  | ConditionalCode => pure (Ok conditionalCode)
  | Compute x => pure (compute x)
  | UnsafeContainer_at index c => pure (UnsafeContainer.at_ index c)
  | UnsafeContainer_front c => pure (UnsafeContainer.front c)
  | UnsafeContainer_average c => pure (UnsafeContainer.average c)
  | ProcessIndex v index => printing (processIndex v index)
  | ProcessPointer ptr => through_pointer ptr processPointer
  | IncrementCounter name =>
      on_counters (fun m => m1 ← incrementCounter name m; Ok (tt, m1))
  | GetCounter name => on_counters (fun m => Ok (getCounter name m))
  | GameState_applyMove m state => pure (GameState.applyMove m state)
  | TryMove state move => pure (tryMove state move)
  | PlanRoute fuel maxSteps => pure (Ok (planRoute fuel maxSteps))
  | PlatformSpecificInit msc_ver => pure (Ok (platformSpecificInit msc_ver))
  end.

(** The calls whose pointer argument does not point into [counters]. *)
Definition passes_own_objects (op : operation) : Prop :=
  match op with
  | ProcessPointer (Some (Counter_element _)) => False
  | _ => True
  end.

End Before.

(** ** [after.cpp] *)

Module After.

(** *** FIX 1: smart pointers instead of manual memory *)

Module ResourceManager.

Record t : Type := { data : list Z; size : Z }.

(** [explicit ResourceManager(size_t n)]: [make_unique<int[]>(n)] holds
    [n] value-initialised elements. *)
Definition make (n : Z) : t :=
  {| data := replicate (Z.to_nat n) 0; size := n |}.

Definition process (rm : t) : unit :=
  if size rm =? 0 then tt else tt.

End ResourceManager.

Definition safeFunction : unit :=
  let buffer := replicate 100 0 in
  if someCondition then tt
  else process (Some buffer).

(** *** FIX 2: templates instead of function-like macros *)

Definition max_of {T} `{Greater T} (a b : T) : T :=
  if T_gt a b then a else b.

Definition square {T} `{Times T} (x : T) : outcome T :=
  T_mul x x.

(** A call [f(a, b)]: each argument expression is evaluated once, then the
    function is applied to the values. *)
Definition call2 {S A B R} (f : A -> B -> R) (a : expression S A)
  (b : expression S B) : expression S R := fun s =>
  '(va, s1) ← a s;
  '(vb, s2) ← b s1;
  Ok (f va vb, s2).

(** A call [f(a)] of a function whose body may be undefined. *)
Definition call1 {S A R} (f : A -> outcome R) (a : expression S A)
  : expression S R := fun s =>
  '(va, s1) ← a s;
  r ← f va;
  Ok (r, s1).

Definition noMacroProblems : outcome (Z * Z * Locals.t) :=
  let s0 := {| Locals.x := 5; Locals.y := 3; Locals.calls := 0 |} in
  '(max_val, s1) ← call2 max_of Locals.post_increment_x Locals.read_y s0;
  '(squared, s2) ← call1 square Locals.call_expensiveComputation s1;
  Ok (max_val, squared, s2).

(** *** FIX 3: [const] instead of constant macros *)

(** [3.14159265358979], that is [0x1.921fb54442d11p+1] *)
Definition pi : double := S754_finite false 0x1921fb54442d11 (-51).

Definition default_buffer_size : Z := 1024.

Definition error_message : string := "An error occurred".

(** [double area = pi * radius * radius;
     std::vector<char> buffer(default_buffer_size);] *)
Definition useConstants (radius : double) : unit :=
  let area := double_mul (double_mul pi radius) radius in
  let buffer := replicate (Z.to_nat default_buffer_size) 0 in
  tt.

(** *** FIX 4: scoped enum instead of macros *)

Inductive StatusCode : Set := Success | Error.

(** *** FIX 5: ownership with smart pointers *)

Module Container.

Record t : Type := { items : list (option Item) }.

(** [Container() = default;] *)
Definition default : t := {| items := [] |}.

(** [items.push_back(std::move(item));] *)
Definition add (it : option Item) (c : t) : t :=
  {| items := items c ++ [it] |}.

(** [return items[index].get();] with [index] an [int]. *)
Definition get (index : Z) (c : t) : outcome (option Item) :=
  vector_index (items c) (Size.of_int index).

End Container.

(** *** FIX 6: [if constexpr] instead of preprocessor logic *)

Definition use_feature_x : bool := true.

Definition conditionalCode : unit :=
  if use_feature_x then doFeatureX else doAlternative.

(** *** Bonus: source location instead of [__FILE__] and [__LINE__] *)

Record source_location : Type :=
  { file_name : string; line : Z; function_name : string }.

Definition log_message (message : string) (loc : source_location)
  : list token :=
  [Str (file_name loc); Str ":"; Num (line loc);
   Str " ["; Str (function_name loc); Str "] ";
   Str message; Endl].

(** *** FIX 8: [constexpr] only when required *)

Definition app_name : string := "MyApp".

Definition default_timeout : Z := 30.

Definition getName : string := "hello".

Definition getNumbers : list Z := [1; 2; 3].

Definition loadConfig (path : option string) : Z := parseConfigFile path.

Module DataProcessor.

Record t : Type := { name : string }.

(** [DataProcessor(const char* n) : name(n) {}]: a [std::string] cannot be
    built from a null pointer. *)
Definition make (n : option string) : outcome t :=
  match n with
  | Some text => Ok {| name := text |}
  | None => Undefined NullDereference
  end.

End DataProcessor.

Definition buffer_size : Z := 1024.

(** [return n <= 1 ? 1 : n * factorial(n - 1);]  The fuel bounds the depth
    of the recursion; [None] means that it ran out. *)
Fixpoint factorial_fuel (fuel : nat) (n : Z) : option (outcome Z) :=
  match fuel with
  | O => None
  | S fuel' =>
      if n <=? 1 then Some (Ok 1)
      else match factorial_fuel fuel' (n - 1) with
           | Some r => Some (r' ← r; Int.mul n r')
           | None => None
           end
  end.

(** Nested calls made by [factorial(n)], the outermost one included. *)
Definition factorial_depth (n : Z) : nat := S (Z.to_nat (n - 1)).

(** *** FIX 9: documented preconditions and safe alternatives *)

Module SafeContainer.

Record t (T : Type) : Type := { data : list T }.
Arguments data {T} _.

Section Methods.

Context {T : Type} (num : Numeric T).

Definition empty (c : t T) : bool :=
  match data c with
  | [] => true
  | _ :: _ => false
  end.

Definition size (c : t T) : Z := vector_size (data c).

(** PRECONDITION: index must be in range [0, size()) *)
Definition at_ (index : Z) (c : t T) : outcome T :=
  vector_index (data c) index.

(** UB: calling front() on empty container is undefined behavior *)
Definition front (c : t T) : outcome T :=
  match data c with
  | x :: _ => Ok x
  | [] => Undefined OutOfRange
  end.

(** [for (const auto& item : data) sum += item;] *)
Fixpoint accumulate (items : list T) (sum : T) : outcome T :=
  match items with
  | [] => Ok sum
  | x :: rest => sum' ← T_add sum x; accumulate rest sum'
  end.

Definition average (c : t T) : outcome (option T) :=
  if empty c then Ok None
  else
    sum ← accumulate (data c) T_zero;
    q ← T_div sum (T_of_size (size c));
    Ok (Some q).

(** The reference returned is modelled by the element it refers to. *)
Definition get (index : Z) (c : t T) : outcome (option T) :=
  if size c <=? index then Ok None
  else
    x ← vector_index (data c) index;
    Ok (Some x).

End Methods.

End SafeContainer.

(** [if (index < v.size()) std::cout << v[index];] *)
Definition processIndexSafe (v : list Z) (index : Z) : outcome (list token) :=
  if index <? vector_size v then
    x ← vector_index v index;
    Ok [Num x]
  else Ok [].

(** [value = 42;]: the referenced [int] after the call. *)
Definition processReference (value : Z) : Z := 42.

(** [*ptr = 42;]: the pointed-to [int] after the call. *)
Definition processPointerDocumented (ptr : option Z) : outcome Z :=
  match ptr with
  | Some _ => Ok 42
  | None => Undefined NullDereference
  end.

(** *** FIX 10: documented map insertion *)

Definition incrementCounterSafe (name : string) (counters : gmap string Z)
  : outcome (gmap string Z) :=
  match counters !! name with           (* it = counters.find(name) *)
  | Some v =>                           (* it != counters.end() *)
      v' ← Int.add v 1;                 (* it->second++ *)
      Ok (<[name := v']> counters)
  | None =>
      let '(_, counters1) := subscript name counters in
      Ok (<[name := 1]> counters1)      (* counters[name] = 1 *)
  end.

Definition getCounterSafe (name : string) (counters : gmap string Z)
  : Z * gmap string Z :=
  match counters !! name with
  | Some v => (v, counters)
  | None => (0, counters)
  end.

Definition setCounter (name : string) (value : Z) (counters : gmap string Z)
  : gmap string Z :=
  let '(_, counters1) := subscript name counters in
  <[name := value]> counters1.

(** *** FIX 11: documented intentional copy *)

(** The body of [tryMoveSafe], acting on its parameter [state]. *)
Definition tryMoveSafe_body (move : Z) (state : GameState.t)
  : outcome (bool * GameState.t) :=
  state1 ← GameState.applyMove move state;
  if GameState.score state1 <? 0 then Ok (false, state1)
  else Ok (true, state1).

(** [bool tryMoveSafe(GameState state, int move)]: the result and the
    caller's object after the call. *)
Definition tryMoveSafe (state : GameState.t) (move : Z)
  : outcome (bool * GameState.t) :=
  call_by_value (tryMoveSafe_body move) state.

(** *** FIX 12: documented type limits *)

(** [typedef unsigned char StepCount;]: the values of the type are the
    results of converting to [unsigned char]. *)
Definition StepCount (v : Z) : Prop := exists z, UChar.of_Z z = v.

(** [for (StepCount i = 0; i < maxSteps; ++i) { }]: the number of
    iterations made, [None] when the fuel runs out first. *)
Fixpoint planRouteSafe_loop (fuel : nat) (maxSteps i : Z) (iterations : nat)
  : option nat :=
  match fuel with
  | O => None
  | S fuel' =>
      if i <? maxSteps
      then planRouteSafe_loop fuel' maxSteps (UChar.add i 1) (S iterations)
      else Some iterations
  end.

Definition planRouteSafe (fuel : nat) (maxSteps : Z) : option nat :=
  planRouteSafe_loop fuel maxSteps 0 0.

(** *** FIX 13: documented platform-specific code *)

(** Both branches of [#if defined(_MSC_VER)] are empty. *)
Definition platformSpecificInitSafe (msc_ver : bool) : unit :=
  if msc_ver then tt else tt.

Definition use_custom_allocator (ndebug : bool) : bool :=
  if ndebug then true else false.

(** *** The program as a whole *)

(** The namespace-scope variables that are not [const]:
    [std::array<char, buffer_size> buffer] (FIX 8), [counters] (FIX 10) and
    [radius] (helper declarations). *)
Record Globals : Type :=
  { buffer : list Z; counters : gmap string Z; radius : double }.

Definition initial : Globals :=
  {| buffer := replicate (Z.to_nat buffer_size) 0;
     counters := ∅;
     radius := radius_initial |}.

(** A call that reads and writes [counters] only. *)
Definition on_counters {A} (f : gmap string Z -> outcome (A * gmap string Z))
  : program Globals A := fun g =>
  '(a, counters1) ← f (counters g);
  Ok (a, {| buffer := buffer g; counters := counters1; radius := radius g |},
      []).

(** A call that reads [radius] only. *)
Definition reading_radius {A} (f : double -> A) : program Globals A := fun g =>
  Ok (f (radius g), g, []).

(** A call whose body [f] acts on the [int] that [target] designates: it
    yields the value of that object after the call.  For [counters[key]] the
    caller's subscript comes first, and the object is in the map. *)
Definition through (target : int_reference) (f : Z -> outcome Z)
  : program Globals Z :=
  match target with
  | Caller_int value => pure (f value)
  | Counter_element key =>
      on_counters (fun m =>
        let '(old, m1) := subscript key m in
        new ← f old;
        Ok (new, <[key := new]> m1))
  end.

(** The same for a pointer, which may be null. *)
Definition through_pointer (ptr : option int_reference)
  (f : option Z -> outcome Z) : program Globals Z :=
  match ptr with
  | Some target => through target (fun value => f (Some value))
  | None => pure (f None)
  end.

(** The calls a client can make, each with its arguments; an object
    argument is the object the call is made on, and an [int&] or [int*]
    argument is what it designates. *)
Inductive operation : Type :=
| ResourceManager_make (n : Z)
| ResourceManager_process (rm : ResourceManager.t)
| SafeFunction
| Max_of (a b : Z)
| Square (x : Z)
| NoMacroProblems
| UseConstants
| Container_add (it : option Item) (c : Container.t)
| Container_get (index : Z) (c : Container.t)
| ConditionalCode
| Log_message (message : string) (loc : source_location)
| GetName
| GetNumbers
| LoadConfig (path : option string)
| DataProcessor_make (n : option string)
| Factorial (fuel : nat) (n : Z)
| SafeContainer_at (index : Z) (c : SafeContainer.t Z)
| SafeContainer_front (c : SafeContainer.t Z)
| SafeContainer_average (c : SafeContainer.t Z)
| SafeContainer_get (index : Z) (c : SafeContainer.t Z)
| SafeContainer_empty (c : SafeContainer.t Z)
| SafeContainer_size (c : SafeContainer.t Z)
| ProcessIndexSafe (v : list Z) (index : Z)
| ProcessReference (value : int_reference)
| ProcessPointerDocumented (ptr : option int_reference)
| IncrementCounterSafe (name : string)
| GetCounterSafe (name : string)
| SetCounter (name : string) (value : Z)
| GameState_applyMove (m : Z) (state : GameState.t)
| TryMoveSafe (state : GameState.t) (move : Z)
| PlanRouteSafe (fuel : nat) (maxSteps : Z)
| PlatformSpecificInitSafe (msc_ver : bool).

Definition category_of (op : operation) : category :=
  match op with
  | ResourceManager_make _ | ResourceManager_process _ | SafeFunction =>
      Ownership
  | Max_of _ _ | Square _ | NoMacroProblems => Macros
  | UseConstants => Constants
  | Container_add _ _ | Container_get _ _ => OwnershipTransfer
  | ConditionalCode => ConditionalCompilation
  | Log_message _ _ => Bonus
  | GetName | GetNumbers | LoadConfig _ | DataProcessor_make _
  | Factorial _ _ => CompileTimeEvaluation
  | SafeContainer_at _ _ | SafeContainer_front _ | SafeContainer_average _
  | SafeContainer_get _ _ | SafeContainer_empty _ | SafeContainer_size _
  | ProcessIndexSafe _ _ | ProcessReference _
  | ProcessPointerDocumented _ => UndefinedBehaviorDocumentation
  | IncrementCounterSafe _ | GetCounterSafe _
  | SetCounter _ _ => AssociativeContainerAccess
  | GameState_applyMove _ _ | TryMoveSafe _ _ => ValueSemanticsIntent
  | PlanRouteSafe _ _ => NumericRangeDocumentation
  | PlatformSpecificInitSafe _ => PlatformConditionals
  end.

(** What a call hands back: its return value and, for a call on an object
    or through a reference, that object after the call.  A call whose fuel
    runs out hands back [None]. *)
Definition result (op : operation) : Type :=
  match op with
  | ResourceManager_make _ => ResourceManager.t
  | Max_of _ _ | Square _ | LoadConfig _ | SafeContainer_at _ _
  | SafeContainer_front _ | SafeContainer_size _ | ProcessReference _
  | ProcessPointerDocumented _ | GetCounterSafe _ => Z
  | NoMacroProblems => Z * Z * Locals.t
  | Container_add _ _ => Container.t
  | Container_get _ _ => option Item
  | GetName => string
  | GetNumbers => list Z
  | DataProcessor_make _ => DataProcessor.t
  | Factorial _ _ | SafeContainer_average _ | SafeContainer_get _ _ =>
      option Z
  | SafeContainer_empty _ => bool
  | GameState_applyMove _ _ => GameState.t
  | TryMoveSafe _ _ => bool * GameState.t
  | PlanRouteSafe _ _ => option nat
  | ResourceManager_process _ | SafeFunction | UseConstants | ConditionalCode
  | Log_message _ _ | ProcessIndexSafe _ _ | IncrementCounterSafe _
  | SetCounter _ _ | PlatformSpecificInitSafe _ => unit
  end.

Definition run (op : operation) : program Globals (result op) :=
  match op return program Globals (result op) with
  | ResourceManager_make n => pure (Ok (ResourceManager.make n))
  | ResourceManager_process rm => pure (Ok (ResourceManager.process rm))
  | SafeFunction => pure (Ok safeFunction)
  | Max_of a b => pure (Ok (max_of a b))
  | Square x => pure (square x)
  | NoMacroProblems => pure noMacroProblems
  | UseConstants => reading_radius useConstants
  | Container_add it c => pure (Ok (Container.add it c))
  | Container_get index c => pure (Container.get index c)
  | ConditionalCode => pure (Ok conditionalCode)
  | Log_message message loc => printing (Ok (log_message message loc))
  | GetName => pure (Ok getName)
  | GetNumbers => pure (Ok getNumbers)
  | LoadConfig path => pure (Ok (loadConfig path))
  | DataProcessor_make n => pure (DataProcessor.make n)
  | Factorial fuel n =>
      pure match factorial_fuel fuel n with
           | Some r => v ← r; Ok (Some v)
           | None => Ok None
           end
  | SafeContainer_at index c => pure (SafeContainer.at_ index c)
  | SafeContainer_front c => pure (SafeContainer.front c)
  | SafeContainer_average c => pure (SafeContainer.average int_numeric c)
  | SafeContainer_get index c => pure (SafeContainer.get index c)
  | SafeContainer_empty c => pure (Ok (SafeContainer.empty c))
  | SafeContainer_size c => pure (Ok (SafeContainer.size c))
  | ProcessIndexSafe v index => printing (processIndexSafe v index)
  | ProcessReference value =>
      through value (fun v => Ok (processReference v))
  | ProcessPointerDocumented ptr =>
      through_pointer ptr processPointerDocumented
  | IncrementCounterSafe name =>
      on_counters (fun m => m1 ← incrementCounterSafe name m; Ok (tt, m1))
  | GetCounterSafe name => on_counters (fun m => Ok (getCounterSafe name m))
  | SetCounter name value =>
      on_counters (fun m => Ok (tt, setCounter name value m))
  | GameState_applyMove m state => pure (GameState.applyMove m state)
  | TryMoveSafe state move => pure (tryMoveSafe state move)
  | PlanRouteSafe fuel maxSteps => pure (Ok (planRouteSafe fuel maxSteps))
  | PlatformSpecificInitSafe msc_ver =>
      pure (Ok (platformSpecificInitSafe msc_ver))
  end.

(** The calls whose reference or pointer argument does not designate an
    element of [counters]. *)
Definition passes_own_objects (op : operation) : Prop :=
  match op with
  | ProcessReference (Counter_element _) => False
  | ProcessPointerDocumented (Some (Counter_element _)) => False
  | _ => True
  end.

End After.

(** ** Vocabulary of the statements *)

(** The mathematical sum of a list of integers. *)
Definition total (items : list Z) : Z := foldr Z.add 0 items.

(** The mathematical factorial [k!]. *)
Fixpoint product_up_to (k : nat) : Z :=
  match k with
  | O => 1
  | S k' => Z.of_nat k * product_up_to k'
  end.

(** Every running sum of [items] is an [int]. *)
Definition running_sums_in_int (items : list Z) : Prop :=
  forall k, (k <= length items)%nat ->
            Int.min <= total (take k items) <= Int.max.

(** An ordered type: [>] is a strict total order. *)
Class GreaterLaws (T : Type) `{Greater T} : Prop := {
  T_gt_irrefl : forall a, T_gt a a = false;
  T_gt_trans : forall a b c, T_gt a b = true -> T_gt b c = true -> T_gt a c = true;
  T_gt_total : forall a b, T_gt a b = true \/ a = b \/ T_gt b a = true
}.

(** [m] is the maximum of [a] and [b]: it is one of them and neither is
    greater. *)
Definition is_max {T} `{Greater T} (a b m : T) : Prop :=
  (m = a \/ m = b) /\ T_gt a m = false /\ T_gt b m = false.

(** A call that neither reads nor writes a namespace-scope variable: from
    any two states it has the same verdict, value and output, and it leaves
    the state it started from. *)
Definition stateless {G A} (c : program G A) : Prop :=
  forall g g',
    match c g with
    | Ok (r, final, out) => final = g /\ c g' = Ok (r, g', out)
    | Undefined why => c g' = Undefined why
    end.

(** Calls of different categories do not interfere, as long as both are
    [admitted]: if [a] runs first, [b] has the same verdict, value and
    output as without [a]; and when both are defined, running them in the
    other order gives each the same value and output and ends in the same
    state. *)
Definition non_interfering {G Op} (category_of : Op -> category)
  (admitted : Op -> Prop)
  (result : Op -> Type) (run : forall op, program G (result op)) : Prop :=
  forall a b, admitted a -> admitted b -> category_of a <> category_of b ->
  forall g ra ga outa, run a g = Ok (ra, ga, outa) ->
    observed (run b ga) = observed (run b g)
    /\ forall rb gb outb, run b g = Ok (rb, gb, outb) ->
       exists gab, run b ga = Ok (rb, gab, outb)
                   /\ run a gb = Ok (ra, gab, outa).

(** What [SafeContainer<T>::average] relies on: an addition never reports a
    division by zero, and a division reports one exactly for the divisor
    [T{}]. *)
Class NumericLaws {T} (num : Numeric T) : Prop := {
  T_add_not_div0 : forall a b, T_add a b <> Undefined DivisionByZero;
  T_div_by_zero : forall a b, T_div a b = Undefined DivisionByZero <-> b = T_zero
}.

(** [k] calls of [incrementCounterSafe(name)] in a row. *)
Fixpoint increment_times (k : nat) (name : string) (counters : gmap string Z)
  : outcome (gmap string Z) :=
  match k with
  | O => Ok counters
  | S k' =>
      counters1 ← After.incrementCounterSafe name counters;
      increment_times k' name counters1
  end.

(** The container a client of after.cpp gets from [Container()] by adding
    the items [its] in order. *)
Definition container_filled (its : list (option Item)) : After.Container.t :=
  foldl (fun c it => After.Container.add it c) After.Container.default its.

(** The same calls on the [Container] of before.cpp. *)
Definition container_filled_before (its : list (option Item))
  : Before.Container.t :=
  foldl (fun c it => Before.Container.add it c) Before.Container.default its.

(** The score is the sum of the moves applied so far. *)
Definition score_tracks_moves (state : GameState.t) : Prop :=
  GameState.score state = total (GameState.moves state).

(** An argument expression without side effect: it yields [v] and leaves
    the local variables as they are. *)
Definition yields {S A} (e : expression S A) (s : S) (v : A) : Prop :=
  e s = Ok (v, s).

(** * Results *)

(** ** Arithmetic *)

Lemma Int_in_range_spec z : Int.in_range z = true <-> Int.min <= z <= Int.max.
Proof. unfold Int.in_range. rewrite andb_true_iff, !Z.leb_le. tauto. Qed.

Lemma Int_checked_ok z : Int.min <= z <= Int.max -> Int.checked z = Ok z.
Proof.
  intros H. unfold Int.checked.
  destruct (Int.in_range z) eqn:E; [reflexivity|].
  apply Int_in_range_spec in H. congruence.
Qed.

Lemma Int_checked_overflow z :
  z < Int.min \/ Int.max < z -> Int.checked z = Undefined SignedOverflow.
Proof.
  intros H. unfold Int.checked.
  destruct (Int.in_range z) eqn:E; [|reflexivity].
  apply Int_in_range_spec in E. lia.
Qed.

Lemma Int_checked_inv z r :
  Int.checked z = Ok r -> r = z /\ Int.min <= z <= Int.max.
Proof.
  unfold Int.checked. destruct (Int.in_range z) eqn:E; [|discriminate].
  intros [= <-]. split; [reflexivity|]. now apply Int_in_range_spec.
Qed.

Lemma Int_checked_not_div0 z : Int.checked z <> Undefined DivisionByZero.
Proof. unfold Int.checked. destruct (Int.in_range z); discriminate. Qed.

(** ** Snippet 10: the counters map *)

Section Counters.

Implicit Types (name : string) (counters : gmap string Z).

Lemma subscript_present name counters v :
  counters !! name = Some v -> subscript name counters = (v, counters).
Proof. intros H. unfold subscript. now rewrite H. Qed.

Lemma subscript_missing name counters :
  counters !! name = None ->
  subscript name counters = (0, <[name := 0]> counters).
Proof. intros H. unfold subscript. now rewrite H. Qed.

Lemma increment_same_outcome name counters :
  Before.incrementCounter name counters
  = After.incrementCounterSafe name counters.
Proof.
  unfold Before.incrementCounter, After.incrementCounterSafe, subscript.
  destruct (counters !! name) as [v|] eqn:E; [reflexivity|].
  change (Int.add 0 1) with (Ok 1). cbn.
  now rewrite insert_insert_eq.
Qed.

Lemma incrementCounterSafe_missing name counters :
  counters !! name = None ->
  After.incrementCounterSafe name counters = Ok (<[name := 1]> counters).
Proof.
  intros H. unfold After.incrementCounterSafe, subscript. rewrite H.
  now rewrite insert_insert_eq.
Qed.

Lemma incrementCounterSafe_present name counters v :
  counters !! name = Some v -> Int.min <= v < Int.max ->
  After.incrementCounterSafe name counters = Ok (<[name := v + 1]> counters).
Proof.
  intros H Hv. unfold After.incrementCounterSafe. rewrite H.
  unfold Int.add. rewrite Int_checked_ok by lia. reflexivity.
Qed.

Lemma incrementCounterSafe_saturated name counters :
  counters !! name = Some Int.max ->
  After.incrementCounterSafe name counters = Undefined SignedOverflow.
Proof.
  intros H. unfold After.incrementCounterSafe. rewrite H. reflexivity.
Qed.

(** The invariant of the map is kept by every defined increment. *)
Lemma incrementCounterSafe_wf name counters counters' :
  counters_wf counters ->
  After.incrementCounterSafe name counters = Ok counters' ->
  counters_wf counters'.
Proof.
  unfold After.incrementCounterSafe, subscript, counters_wf.
  intros Hwf. destruct (counters !! name) as [v|] eqn:E.
  - unfold Int.add. destruct (Int.checked (v + 1)) as [r|] eqn:Er; [|discriminate].
    intros [= <-]. apply Int_checked_inv in Er as [-> Hr].
    now apply map_Forall_insert_2.
  - intros [= <-]. rewrite insert_insert_eq.
    apply map_Forall_insert_2; [|assumption]. unfold Int.min, Int.max. lia.
Qed.

(** C1, as the code has it: [incrementCounter] of before.cpp and
    [incrementCounterSafe] of after.cpp have the same outcome on every
    counters map and every name.  A missing key ends mapped to 1; a present
    key whose value [v] is an [int] below [INT_MAX] ends mapped to [v + 1];
    at [INT_MAX] the increment overflows in both functions, which is
    undefined behaviour, and no final map is produced. *)
Theorem incrementCounterSafe_refines_incrementCounter name counters :
  Before.incrementCounter name counters
  = After.incrementCounterSafe name counters
  /\ (counters !! name = None ->
      After.incrementCounterSafe name counters = Ok (<[name := 1]> counters))
  /\ (forall v, counters !! name = Some v -> Int.min <= v < Int.max ->
      After.incrementCounterSafe name counters
      = Ok (<[name := v + 1]> counters))
  /\ (counters !! name = Some Int.max ->
      After.incrementCounterSafe name counters = Undefined SignedOverflow).
Proof.
  split; [apply increment_same_outcome|].
  split; [apply incrementCounterSafe_missing|].
  split; [apply incrementCounterSafe_present|].
  apply incrementCounterSafe_saturated.
Qed.

Lemma incrementCounterSafe_refines_incrementCounter_witness :
  ({["hits" := 41]} : gmap string Z) !! "hits" = Some 41
  /\ Int.min <= 41 < Int.max
  /\ After.incrementCounterSafe "hits" {["hits" := 41]}
     = Ok (<["hits" := 41 + 1]> {["hits" := 41]}).
Proof.
  split; [apply lookup_singleton_eq|].
  split; [unfold Int.min, Int.max; lia|].
  apply (proj1 (proj2 (proj2
    (incrementCounterSafe_refines_incrementCounter "hits" {["hits" := 41]})))).
  - apply lookup_singleton_eq.
  - unfold Int.min, Int.max; lia.
Defined.

(** C1, as stated, fails where the stored value is [INT_MAX]: the value is
    not incremented by 1, in neither function. *)
Lemma incrementCounter_int_max_overflows :
  counters_wf {["hits" := Int.max]}
  /\ ({["hits" := Int.max]} : gmap string Z) !! "hits" = Some Int.max
  /\ After.incrementCounterSafe "hits" {["hits" := Int.max]}
     <> Ok (<["hits" := Int.max + 1]> {["hits" := Int.max]})
  /\ After.incrementCounterSafe "hits" {["hits" := Int.max]}
     = Undefined SignedOverflow
  /\ Before.incrementCounter "hits" {["hits" := Int.max]}
     = Undefined SignedOverflow.
Proof.
  assert (L : ({["hits" := Int.max]} : gmap string Z) !! "hits" = Some Int.max)
    by apply lookup_singleton_eq.
  assert (R : After.incrementCounterSafe "hits" {["hits" := Int.max]}
              = Undefined SignedOverflow)
    by exact (incrementCounterSafe_saturated _ _ L).
  split.
  { apply map_Forall_singleton. unfold Int.min, Int.max. lia. }
  split; [exact L|].
  split; [rewrite R; discriminate|].
  split; [exact R|].
  rewrite increment_same_outcome. exact R.
Qed.

(** C2: [getCounterSafe] returns the value stored under [name], or 0 when
    there is none, and leaves the map as it was; [getCounter] of before.cpp
    returns the same value but, for a missing key, leaves a map that holds
    a new entry 0 under [name]. *)
Theorem getCounterSafe_reads_without_inserting name counters :
  After.getCounterSafe name counters = (default 0 (counters !! name), counters)
  /\ fst (Before.getCounter name counters) = default 0 (counters !! name)
  /\ (counters !! name = None ->
      snd (Before.getCounter name counters) = <[name := 0]> counters
      /\ snd (Before.getCounter name counters) <> counters).
Proof.
  unfold After.getCounterSafe, Before.getCounter, subscript.
  destruct (counters !! name) as [v|] eqn:E; cbn.
  - split; [reflexivity|]. split; [reflexivity|]. discriminate.
  - split; [reflexivity|]. split; [reflexivity|]. intros _.
    split; [reflexivity|]. intros Heq.
    assert (H : <[name := 0]> counters !! name = Some 0)
      by apply lookup_insert_eq.
    rewrite Heq, E in H. discriminate.
Qed.

Lemma getCounterSafe_reads_without_inserting_witness :
  (∅ : gmap string Z) !! "hits" = None
  /\ After.getCounterSafe "hits" ∅ = (0, ∅)
  /\ snd (Before.getCounter "hits" ∅) = <["hits" := 0]> ∅
  /\ snd (Before.getCounter "hits" ∅) <> ∅.
Proof.
  pose proof (getCounterSafe_reads_without_inserting "hits" ∅) as (H1 & _ & H3).
  split; [apply lookup_empty|].
  split; [exact H1|].
  apply H3, lookup_empty.
Defined.

End Counters.

(** ** Snippet 9: SafeContainer *)

Lemma vector_index_in_range {A} (v : list A) i :
  0 <= i < vector_size v ->
  exists x, v !! Z.to_nat i = Some x /\ vector_index v i = Ok x.
Proof.
  unfold vector_size, vector_index. intros H.
  destruct (i <? 0) eqn:E; [apply Z.ltb_lt in E; lia|].
  destruct (lookup_lt_is_Some_2 v (Z.to_nat i)) as [x Hx]; [lia|].
  exists x. now rewrite Hx.
Qed.

Lemma vector_index_past_end {A} (v : list A) i :
  vector_size v <= i -> vector_index v i = Undefined OutOfRange.
Proof.
  unfold vector_size, vector_index. intros H.
  destruct (i <? 0); [reflexivity|].
  rewrite lookup_ge_None_2 by lia. reflexivity.
Qed.

#[global] Instance int_numeric_laws : NumericLaws int_numeric.
Proof.
  split; cbn.
  - intros a b. apply Int_checked_not_div0.
  - intros a b. unfold Int.div. destruct (b =? 0) eqn:E.
    + apply Z.eqb_eq in E. tauto.
    + apply Z.eqb_neq in E. split; [|tauto].
      intros H. now apply Int_checked_not_div0 in H.
Qed.

#[global] Instance uchar_numeric_laws : NumericLaws uchar_numeric.
Proof.
  split; cbn.
  - discriminate.
  - intros a b. unfold UChar.div. destruct (b =? 0) eqn:E.
    + apply Z.eqb_eq in E. tauto.
    + apply Z.eqb_neq in E. split; [discriminate|tauto].
Qed.

Section SafeContainerFacts.

Context {T : Type} (num : Numeric T).

Implicit Types c : After.SafeContainer.t T.

Lemma empty_spec c :
  After.SafeContainer.empty c = true <-> After.SafeContainer.data c = [].
Proof.
  unfold After.SafeContainer.empty.
  destruct (After.SafeContainer.data c); split; congruence.
Qed.

Lemma size_positive c :
  After.SafeContainer.data c <> [] -> 0 < After.SafeContainer.size c.
Proof.
  unfold After.SafeContainer.size, vector_size.
  destruct (After.SafeContainer.data c); [congruence|]. cbn. lia.
Qed.

Lemma accumulate_not_div0 `{!NumericLaws num} (items : list T) (sum : T) :
  After.SafeContainer.accumulate num items sum <> Undefined DivisionByZero.
Proof.
  revert sum. induction items as [|x rest IH]; intros sum; cbn.
  - discriminate.
  - destruct (T_add sum x) as [sum'|why] eqn:E; cbn.
    + apply IH.
    + intros [= ->]. now apply T_add_not_div0 in E.
Qed.

Lemma average_empty c :
  After.SafeContainer.data c = [] ->
  After.SafeContainer.average num c = Ok None.
Proof.
  intros H. unfold After.SafeContainer.average.
  now rewrite (proj2 (empty_spec c) H).
Qed.

Lemma average_nonempty c :
  After.SafeContainer.data c <> [] ->
  After.SafeContainer.average num c
  = (sum ← After.SafeContainer.accumulate num (After.SafeContainer.data c) T_zero;
     q ← T_div sum (T_of_size (After.SafeContainer.size c));
     Ok (Some q)).
Proof.
  intros H. unfold After.SafeContainer.average.
  destruct (After.SafeContainer.empty c) eqn:E; [|reflexivity].
  now apply empty_spec in E.
Qed.

Lemma average_nullopt_iff c :
  After.SafeContainer.average num c = Ok None
  <-> After.SafeContainer.data c = [].
Proof.
  split; [|apply average_empty].
  intros H.
  destruct (After.SafeContainer.data c) as [|x rest] eqn:D; [reflexivity|].
  rewrite average_nonempty in H by (rewrite D; discriminate).
  destruct (After.SafeContainer.accumulate num _ _) as [sum|]; cbn in H;
    [|discriminate].
  destruct (T_div sum _) as [q|]; cbn in H; discriminate.
Qed.

Lemma average_no_division_by_zero `{!NumericLaws num} c :
  T_of_size (After.SafeContainer.size c) <> T_zero ->
  After.SafeContainer.average num c <> Undefined DivisionByZero.
Proof.
  intros Hd. unfold After.SafeContainer.average.
  destruct (After.SafeContainer.empty c); [discriminate|].
  destruct (After.SafeContainer.accumulate num _ _) as [sum|why] eqn:E; cbn.
  - destruct (T_div sum _) as [q|why] eqn:Eq; cbn; [discriminate|].
    intros [= ->]. apply T_div_by_zero in Eq. contradiction.
  - intros [= ->]. now apply accumulate_not_div0 in E.
Qed.

(** C4: [get(index)] is [nullopt] exactly when [index >= size()];
    otherwise it is the element stored at position [index]; in both cases
    the evaluation is defined, so that no access is made past the end. *)
Theorem SafeContainer_get_bounds_checked c index :
  0 <= index ->
  (After.SafeContainer.get index c = Ok None
   <-> After.SafeContainer.size c <= index)
  /\ (index < After.SafeContainer.size c ->
      exists x, After.SafeContainer.data c !! Z.to_nat index = Some x
                /\ After.SafeContainer.get index c = Ok (Some x))
  /\ defined (After.SafeContainer.get index c).
Proof.
  intros H0. unfold After.SafeContainer.get, After.SafeContainer.size.
  destruct (vector_size (After.SafeContainer.data c) <=? index) eqn:E.
  - apply Z.leb_le in E. split; [tauto|]. split; [lia|]. now exists None.
  - apply Z.leb_gt in E.
    destruct (vector_index_in_range (After.SafeContainer.data c) index)
      as (x & Hx & Hi); [lia|].
    rewrite Hi. cbn. split; [|split].
    + split; [discriminate|lia].
    + intros _. now exists x.
    + now exists (Some x).
Qed.

End SafeContainerFacts.

Lemma SafeContainer_get_bounds_checked_witness :
  0 <= 1
  /\ 1 < After.SafeContainer.size {| After.SafeContainer.data := [10; 20; 30] |}
  /\ After.SafeContainer.get 1 {| After.SafeContainer.data := [10; 20; 30] |}
     = Ok (Some 20).
Proof.
  split; [lia|]. split; [reflexivity|].
  destruct (SafeContainer_get_bounds_checked
              {| After.SafeContainer.data := [10; 20; 30] |} 1)
    as (_ & H & _); [lia|].
  destruct H as (x & Hx & Hg); [reflexivity|].
  cbn in Hx. injection Hx as <-. exact Hg.
Defined.

(** *** [average] on [int] elements *)

Lemma Int_of_size_small n : 0 <= n <= Int.max -> Int.of_size n = n.
Proof.
  unfold Int.of_size, Int.max. intros H.
  rewrite Z.mod_small by lia. lia.
Qed.

Lemma Int_of_size_nonzero n : 0 < n < 2 ^ 32 -> Int.of_size n <> 0.
Proof.
  unfold Int.of_size. intros H E.
  destruct (Z_lt_le_dec n (2 ^ 31)) as [Hlt|Hge].
  - rewrite Z.mod_small in E by lia. lia.
  - replace (n + 2 ^ 31) with ((n - 2 ^ 31) + 1 * 2 ^ 32) in E by lia.
    rewrite Z.mod_add, Z.mod_small in E by lia. lia.
Qed.

Lemma UChar_of_Z_small n : 0 <= n <= UChar.max -> UChar.of_Z n = n.
Proof.
  unfold UChar.of_Z, UChar.modulus, UChar.max. intros H.
  apply Z.mod_small. lia.
Qed.

Lemma UChar_of_Z_range z : 0 <= UChar.of_Z z <= UChar.max.
Proof.
  unfold UChar.of_Z, UChar.modulus, UChar.max.
  pose proof (Z.mod_pos_bound z 256). lia.
Qed.

Lemma quot_within n s :
  0 < n -> Int.min <= s <= Int.max -> Int.min <= Z.quot s n <= Int.max.
Proof.
  intros Hn Hs. unfold Int.min, Int.max in *.
  destruct (Z_lt_le_dec s 0) as [Hneg|Hpos].
  - assert (s <= Z.quot s n <= 0); [|lia]. split.
    + rewrite <- (Z.opp_involutive s), Z.quot_opp_l by lia.
      apply (proj1 (Z.opp_le_mono _ _)).
      apply Z.quot_le_upper_bound; nia.
    + rewrite <- (Z.opp_involutive s), Z.quot_opp_l by lia.
      pose proof (Z.quot_pos (- s) n). lia.
  - assert (0 <= Z.quot s n <= s); [|lia]. split.
    + apply Z.quot_pos; lia.
    + apply Z.quot_le_upper_bound; nia.
Qed.

Lemma accumulate_int items sum :
  (forall k, (k <= length items)%nat ->
             Int.min <= sum + total (take k items) <= Int.max) ->
  After.SafeContainer.accumulate int_numeric items sum
  = Ok (sum + total items).
Proof.
  revert sum. induction items as [|x rest IH]; intros sum H; cbn.
  - f_equal. unfold total. cbn. lia.
  - unfold Int.add. rewrite Int_checked_ok.
    + cbn. rewrite IH.
      * f_equal. unfold total. cbn. lia.
      * intros k Hk. specialize (H (S k)).
        unfold total in *. cbn in H. lia.
    + specialize (H 1%nat). unfold total in H. cbn in H.
      rewrite take_0 in H. cbn in H. lia.
Qed.

Lemma average_int_exact (c : After.SafeContainer.t Z) :
  After.SafeContainer.data c <> [] ->
  running_sums_in_int (After.SafeContainer.data c) ->
  After.SafeContainer.size c <= Int.max ->
  After.SafeContainer.average int_numeric c
  = Ok (Some (Z.quot (total (After.SafeContainer.data c))
                     (After.SafeContainer.size c))).
Proof.
  intros Hne Hsum Hsize.
  pose proof (size_positive c Hne) as Hpos.
  rewrite average_nonempty by assumption.
  rewrite accumulate_int by (intros k Hk; cbn; apply Hsum, Hk).
  cbn. rewrite Int_of_size_small by lia.
  unfold Int.div. destruct (After.SafeContainer.size c =? 0) eqn:E;
    [apply Z.eqb_eq in E; lia|].
  rewrite Int_checked_ok; [reflexivity|].
  apply quot_within; [assumption|].
  specialize (Hsum (length (After.SafeContainer.data c))).
  rewrite firstn_all in Hsum. apply Hsum. lia.
Qed.

(** The guard of [average] tests the size, the division uses the size
    converted to [int]: a container of 2^32 elements passes the guard and
    divides by zero. *)
Lemma average_int_count_wraps (c : After.SafeContainer.t Z) sum :
  After.SafeContainer.size c = 2 ^ 32 ->
  After.SafeContainer.accumulate int_numeric (After.SafeContainer.data c) 0
  = Ok sum ->
  After.SafeContainer.average int_numeric c = Undefined DivisionByZero.
Proof.
  intros Hsize Hsum.
  assert (Hne : After.SafeContainer.data c <> []).
  { intros E. unfold After.SafeContainer.size in Hsize.
    rewrite E in Hsize. discriminate. }
  rewrite average_nonempty by assumption.
  cbn. rewrite Hsum. cbn. rewrite Hsize. reflexivity.
Qed.

Lemma accumulate_int_zeros (n : nat) :
  After.SafeContainer.accumulate int_numeric (replicate n 0) 0 = Ok 0.
Proof. induction n as [|n IH]; [reflexivity|exact IH]. Qed.

Lemma average_int_2_32_zeros :
  After.SafeContainer.average int_numeric
    {| After.SafeContainer.data := replicate (Z.to_nat (2 ^ 32)) 0 |}
  = Undefined DivisionByZero.
Proof.
  apply (average_int_count_wraps _ 0).
  - unfold After.SafeContainer.size, vector_size, After.SafeContainer.data.
    rewrite length_replicate. apply Z2Nat.id. lia.
  - apply accumulate_int_zeros.
Qed.

(** C3, as the code has it: [average()] is [nullopt] exactly when the
    container is empty, and the division is never reached then.  Otherwise
    it adds the elements to [T{}] in order and divides that sum by the
    element count converted to [T]; no division by zero occurs when the
    converted count is not [T{}].  For [int] elements whose running sums
    stay within [int] and at most [INT_MAX] of them, the result is the
    mathematical sum divided by the count, truncated toward zero. *)
Theorem SafeContainer_average_guarded :
  (forall T (num : Numeric T) (c : After.SafeContainer.t T),
      After.SafeContainer.average num c = Ok None
      <-> After.SafeContainer.data c = [])
  /\ (forall T (num : Numeric T) (c : After.SafeContainer.t T),
      After.SafeContainer.data c <> [] ->
      After.SafeContainer.average num c
      = (sum ← After.SafeContainer.accumulate num
                 (After.SafeContainer.data c) T_zero;
         q ← T_div sum (T_of_size (After.SafeContainer.size c));
         Ok (Some q)))
  /\ (forall T (num : Numeric T), NumericLaws num ->
      forall c : After.SafeContainer.t T,
      T_of_size (After.SafeContainer.size c) <> T_zero ->
      After.SafeContainer.average num c <> Undefined DivisionByZero)
  /\ (forall c : After.SafeContainer.t Z,
      After.SafeContainer.data c <> [] ->
      running_sums_in_int (After.SafeContainer.data c) ->
      After.SafeContainer.size c <= Int.max ->
      After.SafeContainer.average int_numeric c
      = Ok (Some (Z.quot (total (After.SafeContainer.data c))
                         (After.SafeContainer.size c)))).
Proof.
  split; [intros; apply average_nullopt_iff|].
  split; [intros; now apply average_nonempty|].
  split; [intros; now apply average_no_division_by_zero|].
  apply average_int_exact.
Qed.

Lemma running_sums_7_8_9 : running_sums_in_int [7; 8; 9].
Proof.
  intros k Hk. unfold Int.min, Int.max.
  destruct k as [|[|[|[|k]]]]; cbn in *; lia.
Qed.

Lemma SafeContainer_average_guarded_witness :
  After.SafeContainer.data {| After.SafeContainer.data := [7; 8; 9] |} <> []
  /\ running_sums_in_int [7; 8; 9]
  /\ After.SafeContainer.size {| After.SafeContainer.data := [7; 8; 9] |}
     <= Int.max
  /\ After.SafeContainer.average int_numeric
       {| After.SafeContainer.data := [7; 8; 9] |}
     = Ok (Some 8)
  /\ After.SafeContainer.average int_numeric
       {| After.SafeContainer.data := [7; 8; 9] |}
     <> Undefined DivisionByZero.
Proof.
  pose proof SafeContainer_average_guarded as (_ & _ & H3 & H4).
  split; [discriminate|].
  split; [exact running_sums_7_8_9|].
  split; [discriminate|].
  split.
  - apply (H4 {| After.SafeContainer.data := [7; 8; 9] |});
      [discriminate|exact running_sums_7_8_9|discriminate].
  - apply (H3 Z int_numeric int_numeric_laws
              {| After.SafeContainer.data := [7; 8; 9] |}).
    discriminate.
Defined.

(** C3, as stated, fails in two ways.  The division by zero is reached on
    a container that is not empty when the element count converts to zero:
    256 elements of type [unsigned char], or 2^32 elements of type [int].
    And with the [int] elements [INT_MAX] and 1 the sum overflows, so that
    nothing is returned. *)
Lemma SafeContainer_average_undefined :
  After.SafeContainer.empty
    {| After.SafeContainer.data := replicate 256 1 |} = false
  /\ After.SafeContainer.average uchar_numeric
       {| After.SafeContainer.data := replicate 256 1 |}
     = Undefined DivisionByZero
  /\ After.SafeContainer.average int_numeric
       {| After.SafeContainer.data := replicate (Z.to_nat (2 ^ 32)) 0 |}
     = Undefined DivisionByZero
  /\ After.SafeContainer.average int_numeric
       {| After.SafeContainer.data := [Int.max; 1] |}
     = Undefined SignedOverflow.
Proof.
  split; [reflexivity|].
  split; [vm_compute; reflexivity|].
  split; [apply average_int_2_32_zeros|].
  vm_compute. reflexivity.
Qed.

(** ** Snippet 11: the intentional copy *)

Section Copy.

Implicit Types (state : GameState.t) (move : Z).

Lemma call_by_value_frame {S R} (body : S -> outcome (R * S)) caller r final :
  call_by_value body caller = Ok (r, final) -> final = caller.
Proof.
  unfold call_by_value. destruct (body caller) as [[r' s']|]; cbn;
    [|discriminate].
  now intros [= _ <-].
Qed.

Lemma applyMove_in_range move state :
  Int.min <= GameState.score state + move <= Int.max ->
  GameState.applyMove move state
  = Ok {| GameState.score := GameState.score state + move;
          GameState.moves := GameState.moves state ++ [move] |}.
Proof.
  intros H. unfold GameState.applyMove, Int.add.
  now rewrite Int_checked_ok.
Qed.

Lemma applyMove_overflow move state :
  GameState.score state + move < Int.min
  \/ Int.max < GameState.score state + move ->
  GameState.applyMove move state = Undefined SignedOverflow.
Proof.
  intros H. unfold GameState.applyMove, Int.add.
  now rewrite Int_checked_overflow.
Qed.

Lemma tryMoveSafe_value state move :
  Int.min <= GameState.score state + move <= Int.max ->
  After.tryMoveSafe state move
  = Ok (negb (GameState.score state + move <? 0), state).
Proof.
  intros H. unfold After.tryMoveSafe, call_by_value, After.tryMoveSafe_body.
  rewrite applyMove_in_range by assumption. cbn.
  now destruct (GameState.score state + move <? 0).
Qed.

(** Handing the caller's object itself to the same body would change it:
    the move is appended to [moves]. *)
Lemma tryMoveSafe_body_by_reference_mutates state move r final :
  call_by_reference (After.tryMoveSafe_body move) state = Ok (r, final) ->
  GameState.moves final = GameState.moves state ++ [move]
  /\ final <> state.
Proof.
  unfold call_by_reference, After.tryMoveSafe_body, GameState.applyMove.
  destruct (Int.add _ _) as [score1|]; cbn; [|discriminate].
  destruct (score1 <? 0); intros [= <- <-]; cbn; (split; [reflexivity|]);
    intros E; apply (f_equal GameState.moves) in E; cbn in E;
    apply (f_equal length) in E; rewrite length_app in E; cbn in E; lia.
Qed.

(** C5, as the code has it: whatever [tryMoveSafe] returns, the caller's
    state, score and moves, is what it was before the call; and whenever
    [s.score + m] is an [int], the call returns, and returns [false] exactly
    when [s.score + m < 0]. *)
Theorem tryMoveSafe_works_on_a_copy state move :
  (forall r final, After.tryMoveSafe state move = Ok (r, final) ->
                   final = state)
  /\ (Int.min <= GameState.score state + move <= Int.max ->
      exists r, After.tryMoveSafe state move = Ok (r, state)
                /\ (r = false <-> GameState.score state + move < 0)).
Proof.
  split.
  - intros r final. apply call_by_value_frame.
  - intros H. eexists. split; [now apply tryMoveSafe_value|].
    destruct (GameState.score state + move <? 0) eqn:E; cbn.
    + apply Z.ltb_lt in E. tauto.
    + apply Z.ltb_ge in E. split; [discriminate|lia].
Qed.

Lemma tryMoveSafe_works_on_a_copy_witness :
  Int.min <= 3 + -5 <= Int.max
  /\ After.tryMoveSafe
       {| GameState.score := 3; GameState.moves := [3] |} (-5)
     = Ok (false, {| GameState.score := 3; GameState.moves := [3] |}).
Proof.
  split; [unfold Int.min, Int.max; lia|].
  destruct (proj2 (tryMoveSafe_works_on_a_copy
              {| GameState.score := 3; GameState.moves := [3] |}
              (-5)))
    as (r & Hr & Hfalse); [unfold Int.min, Int.max; cbn; lia|].
  rewrite Hr. f_equal. f_equal. apply Hfalse. cbn. lia.
Defined.

(** C5, as stated, fails where the addition overflows: with a score of
    [INT_MIN] and a move of -1 the sum is negative, yet the call does not
    return [false]; its behaviour is undefined. *)
Lemma tryMoveSafe_overflow_undefined :
  Int.min + -1 < 0
  /\ After.tryMoveSafe
       {| GameState.score := Int.min; GameState.moves := [] |} (-1)
     = Undefined SignedOverflow
  /\ forall final,
       After.tryMoveSafe
         {| GameState.score := Int.min; GameState.moves := [] |}
         (-1)
       <> Ok (false, final).
Proof.
  split; [unfold Int.min; lia|].
  assert (E : After.tryMoveSafe
                {| GameState.score := Int.min;
                   GameState.moves := [] |} (-1)
              = Undefined SignedOverflow) by reflexivity.
  split; [exact E|]. intros final. rewrite E. discriminate.
Qed.

End Copy.

(** ** Snippet 12: the documented type limit *)

Lemma planRouteSafe_loop_terminates fuel maxSteps i iterations :
  0 <= i <= maxSteps -> maxSteps <= UChar.max ->
  (Z.to_nat (maxSteps - i) < fuel)%nat ->
  After.planRouteSafe_loop fuel maxSteps i iterations
  = Some (iterations + Z.to_nat (maxSteps - i))%nat.
Proof.
  revert i iterations.
  induction fuel as [|fuel IH]; intros i iterations Hi Hmax Hfuel; [lia|].
  cbn. destruct (i <? maxSteps) eqn:E.
  - apply Z.ltb_lt in E.
    assert (Hnext : UChar.add i 1 = i + 1).
    { unfold UChar.add. apply UChar_of_Z_small. lia. }
    rewrite Hnext, IH by lia. f_equal. lia.
  - apply Z.ltb_ge in E. f_equal.
    replace (maxSteps - i) with 0 by lia. cbn. lia.
Qed.

(** The loop of before.cpp ignores [maxSteps]: it always makes 1000
    iterations, more than a [StepCount] can count. *)
Lemma planRoute_loop_terminates fuel i iterations :
  0 <= i <= 1000 -> (Z.to_nat (1000 - i) < fuel)%nat ->
  Before.planRoute_loop fuel i iterations
  = Some (iterations + Z.to_nat (1000 - i))%nat.
Proof.
  revert i iterations.
  induction fuel as [|fuel IH]; intros i iterations Hi Hfuel; [lia|].
  cbn. destruct (i <? 1000) eqn:E.
  - apply Z.ltb_lt in E. rewrite IH by lia. f_equal. lia.
  - apply Z.ltb_ge in E. f_equal.
    replace (1000 - i) with 0 by lia. cbn. lia.
Qed.

Lemma planRoute_makes_1000_iterations fuel maxSteps :
  (1000 < fuel)%nat -> Before.planRoute fuel maxSteps = Some 1000%nat.
Proof.
  intros H. unfold Before.planRoute.
  rewrite planRoute_loop_terminates by (cbn; lia). reflexivity.
Qed.

(** C6: the values of [StepCount] are exactly 0 to 255, and for every
    [maxSteps] among them the loop of [planRouteSafe] stops after exactly
    [maxSteps] iterations, given any fuel above [maxSteps]. *)
Theorem planRouteSafe_makes_maxSteps_iterations :
  (forall v, After.StepCount v <-> 0 <= v <= 255)
  /\ (forall maxSteps fuel,
      0 <= maxSteps <= 255 -> (Z.to_nat maxSteps < fuel)%nat ->
      After.planRouteSafe fuel maxSteps = Some (Z.to_nat maxSteps)).
Proof.
  split.
  - intros v. split.
    + intros [z <-]. apply UChar_of_Z_range.
    + intros H. exists v. now apply UChar_of_Z_small.
  - intros maxSteps fuel H Hfuel. unfold After.planRouteSafe.
    rewrite planRouteSafe_loop_terminates;
      rewrite ?Z.sub_0_r; unfold UChar.max; try lia.
    reflexivity.
Qed.

Lemma planRouteSafe_makes_maxSteps_iterations_witness :
  0 <= 255 <= 255 /\ (Z.to_nat 255 < 256)%nat
  /\ After.planRouteSafe 256 255 = Some 255%nat.
Proof.
  split; [lia|]. split; [lia|].
  apply (proj2 planRouteSafe_makes_maxSteps_iterations 255 256%nat); lia.
Defined.

(** ** Snippet 2: templates instead of macros *)

#[global] Instance int_greater_laws : GreaterLaws Z.
Proof.
  split; unfold T_gt, int_greater.
  - intros a. rewrite Z.gtb_ltb. apply Z.ltb_irrefl.
  - intros a b c. rewrite !Z.gtb_ltb, !Z.ltb_lt. lia.
  - intros a b. rewrite !Z.gtb_ltb, !Z.ltb_lt. lia.
Qed.

Lemma T_gt_asym {T} `{GreaterLaws T} (a b : T) :
  T_gt a b = true -> T_gt b a = false.
Proof.
  intros Hab. destruct (T_gt b a) eqn:Hba; [|reflexivity].
  pose proof (T_gt_trans _ _ _ Hab Hba) as Haa.
  rewrite T_gt_irrefl in Haa. discriminate.
Qed.

Lemma max_of_is_max {T} `{GreaterLaws T} (a b : T) :
  is_max a b (After.max_of a b).
Proof.
  unfold is_max, After.max_of. destruct (T_gt a b) eqn:E.
  - split; [now left|]. split; [apply T_gt_irrefl|now apply T_gt_asym].
  - split; [now right|]. split; [assumption|apply T_gt_irrefl].
Qed.

Lemma max_of_int (a b : Z) : After.max_of a b = Z.max a b.
Proof.
  unfold After.max_of, T_gt, int_greater. rewrite Z.gtb_ltb.
  destruct (b <? a) eqn:E.
  - apply Z.ltb_lt in E. lia.
  - apply Z.ltb_ge in E. lia.
Qed.

Lemma square_int (x : Z) :
  Int.min <= x * x <= Int.max -> After.square x = Ok (x * x).
Proof. intros H. unfold After.square, T_mul, int_times, Int.mul. now apply Int_checked_ok. Qed.

(** With the templates, [x++] is evaluated once and [max_val] is the
    maximum of 5 and 3; with the macros it is evaluated twice and [max_val]
    is 6. *)
Lemma noMacroProblems_result :
  After.noMacroProblems
  = Ok (5, 1764, {| Locals.x := 6; Locals.y := 3; Locals.calls := 1 |}).
Proof. reflexivity. Qed.

Lemma macroProblems_result :
  Before.macroProblems
  = Ok (6, 1764, {| Locals.x := 7; Locals.y := 3; Locals.calls := 2 |}).
Proof. reflexivity. Qed.

Lemma square_int_overflow (x : Z) :
  Int.max < x * x -> After.square x = Undefined SignedOverflow.
Proof.
  intros H. unfold After.square, T_mul, int_times, Int.mul.
  apply Int_checked_overflow. now right.
Qed.

Lemma square_fits_int (x : Z) :
  x * x <= Int.max <-> -46340 <= x <= 46340.
Proof. unfold Int.max. split; intros H; nia. Qed.

(** C8, as the code has it: [max_of(a, b)] is [a] when [a > b] and [b]
    otherwise, which on an ordered type is the maximum of the two, and on
    [int] is [Z.max].  [square(x)] is the value of [x * x] in the type of
    [x]: on [int] it returns the mathematical square exactly when that is an
    [int], that is for [x] from -46340 to 46340; for every other [x] the
    product overflows and the call is undefined. *)
Theorem max_of_square_compute :
  (forall T (gt : Greater T) (a b : T),
      (T_gt a b = true -> After.max_of a b = a)
      /\ (T_gt a b = false -> After.max_of a b = b))
  /\ (forall T (gt : Greater T), GreaterLaws T ->
      forall a b : T, is_max a b (After.max_of a b))
  /\ (forall T (times : Times T) (x : T), After.square x = T_mul x x)
  /\ (forall a b : Z, After.max_of a b = Z.max a b)
  /\ (forall x : Z, Int.min <= x * x <= Int.max ->
                    After.square x = Ok (x * x))
  /\ (forall x : Z, -46340 <= x <= 46340 -> After.square x = Ok (x * x))
  /\ (forall x : Z, x < -46340 \/ 46340 < x ->
                    After.square x = Undefined SignedOverflow).
Proof.
  split.
  { intros T gt a b. unfold After.max_of.
    split; intros ->; reflexivity. }
  split; [intros; apply max_of_is_max|].
  split; [reflexivity|].
  split; [apply max_of_int|].
  split; [apply square_int|]. split.
  - intros x H. apply square_int. apply square_fits_int in H.
    unfold Int.min. nia.
  - intros x H. apply square_int_overflow.
    destruct (Z_le_gt_dec (x * x) Int.max) as [L|G]; [|lia].
    apply square_fits_int in L. lia.
Qed.

Lemma max_of_square_compute_witness :
  T_gt 7 4 = true /\ After.max_of 7 4 = 7
  /\ is_max 7 4 (After.max_of 7 4)
  /\ -46340 <= 46340 <= 46340 /\ After.square 46340 = Ok (46340 * 46340)
  /\ (-50000 < -46340 \/ 46340 < -50000)
  /\ After.square (-50000) = Undefined SignedOverflow.
Proof.
  pose proof max_of_square_compute as (H1 & H2 & _ & _ & _ & H6 & H7).
  split; [reflexivity|].
  split; [apply (H1 Z int_greater 7 4); reflexivity|].
  split; [apply (H2 Z int_greater int_greater_laws 7 4)|].
  split; [lia|]. split; [apply (H6 46340); lia|].
  split; [lia|]. apply (H7 (-50000)). lia.
Defined.

(** C8, as stated, fails for [square] on [int]: 46341 is an [int], its
    square is not, and [square(46341)] does not return it. *)
Lemma square_46341_overflows :
  Int.min <= 46341 <= Int.max
  /\ Int.max < 46341 * 46341
  /\ After.square 46341 = Undefined SignedOverflow
  /\ After.square 46341 <> Ok (46341 * 46341).
Proof.
  split; [unfold Int.min, Int.max; lia|].
  split; [unfold Int.max; lia|].
  assert (E : After.square 46341 = Undefined SignedOverflow) by reflexivity.
  split; [exact E|]. rewrite E. discriminate.
Qed.

(** ** Snippet 5: the unchecked accessor of Container *)

Lemma Size_of_int_nonneg index :
  0 <= index < Size.modulus -> Size.of_int index = index.
Proof. intros H. unfold Size.of_int. now apply Z.mod_small. Qed.

Lemma Size_of_int_negative index :
  Int.min <= index < 0 -> Size.of_int index = index + Size.modulus.
Proof.
  unfold Size.of_int, Size.modulus, Int.min. intros H.
  replace index with ((index + 2 ^ 64) + (-1) * 2 ^ 64) at 1 by lia.
  rewrite Z.mod_add by lia. apply Z.mod_small. lia.
Qed.

Lemma Container_get_in_range index (c : After.Container.t) :
  0 <= index < vector_size (After.Container.items c) ->
  vector_size (After.Container.items c) < 2 ^ 63 ->
  exists p, After.Container.items c !! Z.to_nat index = Some p
            /\ After.Container.get index c = Ok p.
Proof.
  intros H Hsize. unfold After.Container.get.
  rewrite Size_of_int_nonneg by (unfold Size.modulus; lia).
  now apply vector_index_in_range.
Qed.

Lemma Container_get_out_of_range index (c : After.Container.t) :
  Int.min <= index <= Int.max ->
  vector_size (After.Container.items c) < 2 ^ 63 ->
  ~ 0 <= index < vector_size (After.Container.items c) ->
  After.Container.get index c = Undefined OutOfRange.
Proof.
  intros Hint Hsize Hout. unfold After.Container.get.
  apply vector_index_past_end.
  destruct (Z_lt_le_dec index 0) as [Hneg|Hpos].
  - rewrite Size_of_int_negative by lia.
    unfold Size.modulus, Int.min in *. lia.
  - rewrite Size_of_int_nonneg; [lia|].
    unfold Size.modulus, Int.max in *. lia.
Qed.

(** C9: [Container::get(index)] makes no bounds check.  Under the
    precondition [0 <= index < items.size()] it returns the stored pointer;
    for every other [int] index, negative ones included, the access is out
    of range, and such an index exists for every container: its size. *)
Theorem Container_get_unchecked :
  (forall index (c : After.Container.t),
      0 <= index < vector_size (After.Container.items c) ->
      vector_size (After.Container.items c) < 2 ^ 63 ->
      exists p, After.Container.items c !! Z.to_nat index = Some p
                /\ After.Container.get index c = Ok p)
  /\ (forall index (c : After.Container.t),
      Int.min <= index <= Int.max ->
      vector_size (After.Container.items c) < 2 ^ 63 ->
      ~ 0 <= index < vector_size (After.Container.items c) ->
      After.Container.get index c = Undefined OutOfRange)
  /\ (forall c : After.Container.t,
      vector_size (After.Container.items c) <= Int.max ->
      After.Container.get (vector_size (After.Container.items c)) c
      = Undefined OutOfRange)
  /\ After.Container.get 0 After.Container.default = Undefined OutOfRange.
Proof.
  split; [apply Container_get_in_range|].
  split; [apply Container_get_out_of_range|].
  split; [|reflexivity].
  intros c H. apply Container_get_out_of_range.
  - unfold vector_size, Int.min, Int.max in *. lia.
  - unfold Int.max in H. lia.
  - lia.
Qed.

Lemma Container_get_unchecked_witness :
  0 <= 0 < vector_size (After.Container.items
                          (After.Container.add (Some item)
                             After.Container.default))
  /\ After.Container.get 0
       (After.Container.add (Some item) After.Container.default)
     = Ok (Some item)
  /\ After.Container.get 1
       (After.Container.add (Some item) After.Container.default)
     = Undefined OutOfRange
  /\ After.Container.get (-1)
       (After.Container.add (Some item) After.Container.default)
     = Undefined OutOfRange.
Proof.
  pose proof Container_get_unchecked as (H1 & H2 & _ & _).
  split; [unfold vector_size; cbn; lia|].
  split.
  - destruct (H1 0 (After.Container.add (Some item)
                      After.Container.default))
      as (p & Hp & Hg); [unfold vector_size; cbn; lia..|].
    cbn in Hp. injection Hp as <-. exact Hg.
  - split; apply H2; unfold vector_size, Int.min, Int.max; cbn; lia.
Defined.

(** ** Snippet 8: factorial *)

Lemma factorial_depth_base n : n <= 1 -> After.factorial_depth n = 1%nat.
Proof. intros H. unfold After.factorial_depth. f_equal. lia. Qed.

Lemma factorial_depth_step n :
  1 < n -> After.factorial_depth n = S (After.factorial_depth (n - 1)).
Proof. intros H. unfold After.factorial_depth. f_equal. lia. Qed.

Lemma factorial_fuel_base fuel n :
  n <= 1 -> After.factorial_fuel (S fuel) n = Some (Ok 1).
Proof.
  intros H. cbn. destruct (n <=? 1) eqn:E; [reflexivity|].
  apply Z.leb_gt in E. lia.
Qed.

Lemma factorial_fuel_step fuel n :
  1 < n ->
  After.factorial_fuel (S fuel) n
  = match After.factorial_fuel fuel (n - 1) with
    | Some r => Some (r' ← r; Int.mul n r')
    | None => None
    end.
Proof.
  intros H. cbn. destruct (n <=? 1) eqn:E; [|reflexivity].
  apply Z.leb_le in E. lia.
Qed.

Lemma factorial_fuel_enough fuel n :
  (After.factorial_depth n <= fuel)%nat ->
  exists r, After.factorial_fuel fuel n = Some r.
Proof.
  revert n. induction fuel as [|fuel IH]; intros n H.
  - unfold After.factorial_depth in H. lia.
  - destruct (Z_le_gt_dec n 1) as [Hbase|Hstep].
    + exists (Ok 1). now apply factorial_fuel_base.
    + rewrite factorial_fuel_step by lia.
      destruct (IH (n - 1)) as [r Hr].
      { rewrite factorial_depth_step in H by lia. lia. }
      rewrite Hr. eauto.
Qed.

Lemma factorial_fuel_short fuel n :
  (fuel < After.factorial_depth n)%nat -> After.factorial_fuel fuel n = None.
Proof.
  revert n. induction fuel as [|fuel IH]; intros n H; [reflexivity|].
  destruct (Z_le_gt_dec n 1) as [Hbase|Hstep].
  - rewrite factorial_depth_base in H by assumption. lia.
  - rewrite factorial_fuel_step by lia.
    rewrite IH; [reflexivity|].
    rewrite factorial_depth_step in H by lia. lia.
Qed.

Lemma factorial_fuel_stable fuel fuel' n r :
  After.factorial_fuel fuel n = Some r -> (fuel <= fuel')%nat ->
  After.factorial_fuel fuel' n = Some r.
Proof.
  revert fuel' n r. induction fuel as [|fuel IH]; intros fuel' n r H Hle;
    [discriminate|].
  destruct fuel' as [|fuel']; [lia|].
  destruct (Z_le_gt_dec n 1) as [Hbase|Hstep].
  - rewrite factorial_fuel_base in * by assumption. assumption.
  - rewrite factorial_fuel_step in * by lia.
    destruct (After.factorial_fuel fuel (n - 1)) as [q|] eqn:E;
      [|discriminate].
    rewrite (IH fuel' (n - 1) q) by (trivial; lia). assumption.
Qed.

(** From 13 on the product leaves [int]. *)
Lemma factorial_overflows n :
  13 <= n ->
  After.factorial_fuel (After.factorial_depth n) n
  = Some (Undefined SignedOverflow).
Proof.
  intros H. pattern n. apply (Zlt_lower_bound_ind _ 13); [|assumption].
  clear n H. intros n IH H.
  destruct (Z.eq_dec n 13) as [->|Hne]; [reflexivity|].
  rewrite factorial_depth_step, factorial_fuel_step by lia.
  rewrite IH by lia. reflexivity.
Qed.

(** Up to 12 the result is the mathematical factorial. *)
Lemma factorial_small n :
  1 <= n <= 12 ->
  After.factorial_fuel (After.factorial_depth n) n
  = Some (Ok (product_up_to (Z.to_nat n))).
Proof.
  intros H.
  assert (C : n = 1 \/ n = 2 \/ n = 3 \/ n = 4 \/ n = 5 \/ n = 6 \/ n = 7
              \/ n = 8 \/ n = 9 \/ n = 10 \/ n = 11 \/ n = 12) by lia.
  repeat (destruct C as [->|C]; [vm_compute; reflexivity|]).
  subst n. vm_compute. reflexivity.
Qed.

Lemma factorial_never_returns_from_13 n fuel v :
  13 <= n -> After.factorial_fuel fuel n <> Some (Ok v).
Proof.
  intros H E.
  destruct (le_lt_dec (After.factorial_depth n) fuel) as [Hle|Hlt].
  - pose proof (factorial_overflows n H) as O.
    apply (factorial_fuel_stable _ fuel) in O; [|assumption].
    rewrite E in O. discriminate.
  - rewrite factorial_fuel_short in E by assumption. discriminate.
Qed.

Lemma factorial_returns_up_to_12 n :
  n <= 12 ->
  exists v, After.factorial_fuel (After.factorial_depth n) n = Some (Ok v)
            /\ 1 <= v <= Int.max.
Proof.
  intros H. destruct (Z_le_gt_dec n 1) as [Hbase|Hstep].
  - exists 1. split; [|unfold Int.max; lia].
    unfold After.factorial_depth. now apply factorial_fuel_base.
  - exists (product_up_to (Z.to_nat n)).
    split; [apply factorial_small; lia|].
    assert (C : n = 2 \/ n = 3 \/ n = 4 \/ n = 5 \/ n = 6 \/ n = 7
                \/ n = 8 \/ n = 9 \/ n = 10 \/ n = 11 \/ n = 12) by lia.
    unfold Int.max.
    repeat (destruct C as [->|C]; [vm_compute; split; discriminate|]).
    subst n. vm_compute. split; discriminate.
Qed.

(** C10, as the code has it: [factorial(n)] returns a value for every
    [int] [n] up to 12, zero and negative ones included.  For [n <= 1] it
    returns 1 without a recursive call; otherwise the one recursive call is
    on [n - 1], whose depth is smaller by one, so that exactly
    [max(n - 1, 0) + 1] nested calls are made: that much fuel yields the
    verdict, more does not change it, less runs out.  [factorial(5)] is
    120.  From 13 on the recursion still reaches its end, but the product
    leaves [int] and the evaluation is undefined: no value is returned. *)
Theorem factorial_terminates :
  (forall n, n <= 12 ->
      exists v, After.factorial_fuel (After.factorial_depth n) n = Some (Ok v)
                /\ 1 <= v <= Int.max)
  /\ (forall n, 1 <= n <= 12 ->
      After.factorial_fuel (After.factorial_depth n) n
      = Some (Ok (product_up_to (Z.to_nat n))))
  /\ (forall n, 13 <= n ->
      After.factorial_fuel (After.factorial_depth n) n
      = Some (Undefined SignedOverflow))
  /\ (forall n fuel fuel' r,
      After.factorial_fuel fuel n = Some r -> (fuel <= fuel')%nat ->
      After.factorial_fuel fuel' n = Some r)
  /\ (forall n fuel, n <= 1 -> After.factorial_fuel (S fuel) n = Some (Ok 1))
  /\ (forall n fuel, 1 < n ->
      After.factorial_fuel (S fuel) n
      = match After.factorial_fuel fuel (n - 1) with
        | Some r => Some (r' ← r; Int.mul n r')
        | None => None
        end)
  /\ (forall n, 1 < n ->
      After.factorial_depth n = S (After.factorial_depth (n - 1)))
  /\ (forall n fuel, (fuel < After.factorial_depth n)%nat ->
                     After.factorial_fuel fuel n = None)
  /\ After.factorial_fuel (After.factorial_depth 5) 5 = Some (Ok 120).
Proof.
  split; [apply factorial_returns_up_to_12|].
  split; [apply factorial_small|].
  split; [apply factorial_overflows|].
  split; [intros n fuel fuel' r; apply factorial_fuel_stable|].
  split; [intros n fuel; apply factorial_fuel_base|].
  split; [intros n fuel; apply factorial_fuel_step|].
  split; [apply factorial_depth_step|].
  split; [intros n fuel; apply factorial_fuel_short|reflexivity].
Qed.

Lemma factorial_terminates_witness :
  -7 <= 1 /\ After.factorial_fuel 1 (-7) = Some (Ok 1)
  /\ 1 < 3 /\ After.factorial_depth 3 = S (After.factorial_depth 2)
  /\ After.factorial_fuel 9 3 = Some (Ok 6)
  /\ 1 <= 12 <= 12
  /\ After.factorial_fuel (After.factorial_depth 12) 12
     = Some (Ok 479001600)
  /\ 13 <= 13
  /\ After.factorial_fuel (After.factorial_depth 13) 13
     = Some (Undefined SignedOverflow).
Proof.
  pose proof factorial_terminates
    as (_ & H2 & H3 & H4 & H5 & _ & H7 & _ & _).
  split; [lia|]. split; [apply (H5 (-7) 0%nat); lia|].
  split; [lia|]. split; [apply (H7 3); lia|].
  split; [apply (H4 3 3%nat 9%nat); [reflexivity|lia]|].
  split; [lia|]. split; [apply (H2 12); lia|].
  split; [lia|]. apply (H3 13). lia.
Defined.

(** C10, as stated, fails from 13 on: 13 is an [int], and with no amount
    of fuel does [factorial(13)] return a value; the evaluation ends in a
    signed overflow. *)
Lemma factorial_13_returns_nothing :
  Int.min <= 13 <= Int.max
  /\ After.factorial_fuel (After.factorial_depth 13) 13
     = Some (Undefined SignedOverflow)
  /\ forall fuel v, After.factorial_fuel fuel 13 <> Some (Ok v).
Proof.
  split; [unfold Int.min, Int.max; lia|].
  split; [reflexivity|].
  intros fuel v. apply factorial_never_returns_from_13. lia.
Qed.

(** ** No state shared between the snippet categories *)

Lemma pure_stateless {G A} (c : outcome A) : stateless (@pure G A c).
Proof. intros g g'. unfold pure. destruct c; cbn; auto. Qed.

Lemma printing_stateless {G} (c : outcome (list token)) :
  stateless (@printing G c).
Proof. intros g g'. unfold printing. destruct c; cbn; auto. Qed.

Lemma non_interfering_of_stateless {G Op} (category_of : Op -> category)
  (admitted : Op -> Prop)
  (result : Op -> Type) (run : forall op, program G (result op)) :
  (forall op, admitted op ->
              category_of op <> AssociativeContainerAccess ->
              stateless (run op)) ->
  non_interfering category_of admitted result run.
Proof.
  intros Hstateless a b Oa Ob Hab g ra ga outa Ha.
  destruct (decide (category_of b = AssociativeContainerAccess)) as [Eb|Nb].
  - assert (Na : category_of a <> AssociativeContainerAccess) by congruence.
    pose proof (Hstateless a Oa Na g g) as Hg. rewrite Ha in Hg.
    destruct Hg as [-> _]. split; [reflexivity|].
    intros rb gb outb Hb. exists gb. split; [assumption|].
    pose proof (Hstateless a Oa Na g gb) as Hgb. rewrite Ha in Hgb.
    now destruct Hgb.
  - pose proof (Hstateless b Ob Nb g ga) as Hb.
    destruct (run b g) as [[[rb gb] outb]|why] eqn:Eb.
    + destruct Hb as [-> Hb]. split; [now rewrite Hb|].
      intros rb' gb' outb' [= <- <- <-]. exists ga. now split.
    + split; [now rewrite Hb|]. discriminate.
Qed.

Lemma After_stateless op :
  After.passes_own_objects op ->
  After.category_of op <> AssociativeContainerAccess ->
  stateless (After.run op).
Proof.
  destruct op as [ | | | | | | | | | | | | | | | | | | | | | | |value|ptr
                 | | | | | | | ];
    cbn; intros O H;
    try apply pure_stateless; try apply printing_stateless;
    try contradiction.
  - intros g g'. cbn. auto.
  - destruct value; [apply pure_stateless|contradiction].
  - destruct ptr as [[v|key]|]; [apply pure_stateless|contradiction|].
    apply pure_stateless.
Qed.

Lemma Before_stateless op :
  Before.passes_own_objects op ->
  Before.category_of op <> AssociativeContainerAccess ->
  stateless (Before.run op).
Proof.
  destruct op as [ | | | | | | | | | | | | | | |ptr| | | | | | ];
    cbn; intros O H;
    try apply pure_stateless; try apply printing_stateless;
    try contradiction.
  - intros g g'. cbn. auto.
  - destruct ptr as [[v|key]|]; [apply pure_stateless|contradiction|].
    apply pure_stateless.
Qed.

Lemma After_on_counters_keeps {A}
  (f : gmap string Z -> outcome (A * gmap string Z)) g r final out :
  After.on_counters f g = Ok (r, final, out) ->
  After.buffer final = After.buffer g /\ After.radius final = After.radius g.
Proof.
  unfold After.on_counters.
  destruct (f (After.counters g)) as [[a m]|]; cbn; [|discriminate].
  intros [= _ <- _]. cbn. auto.
Qed.

Lemma Before_on_counters_keeps {A}
  (f : gmap string Z -> outcome (A * gmap string Z)) g r final out :
  Before.on_counters f g = Ok (r, final, out) ->
  Before.radius final = Before.radius g.
Proof.
  unfold Before.on_counters.
  destruct (f (Before.counters g)) as [[a m]|]; cbn; [|discriminate].
  intros [= _ <- _]. reflexivity.
Qed.

Lemma After_writes_counters_only op g r final out :
  After.run op g = Ok (r, final, out) ->
  After.buffer final = After.buffer g /\ After.radius final = After.radius g.
Proof.
  assert (P : forall A (c : outcome A) (x : A) g' o,
            @pure After.Globals A c g = Ok (x, g', o) ->
            After.buffer g' = After.buffer g
            /\ After.radius g' = After.radius g).
  { intros A c x g' o. unfold pure. destruct c; cbn; [|discriminate].
    now intros [= _ <- _]. }
  assert (Q : forall (c : outcome (list token)) x g' o,
            @printing After.Globals c g = Ok (x, g', o) ->
            After.buffer g' = After.buffer g
            /\ After.radius g' = After.radius g).
  { intros c x g' o. unfold printing. destruct c; cbn; [|discriminate].
    now intros [= _ <- _]. }
  destruct op as [ | | | | | | | | | | | | | | | | | | | | | | |value|ptr
                 | | | | | | | ];
    cbn [After.run After.result] in *;
    try apply P; try apply Q; try apply After_on_counters_keeps.
  - unfold After.reading_radius. now intros [= _ <- _].
  - destruct value; cbn [After.through];
      [apply P|apply After_on_counters_keeps].
  - destruct ptr as [[v|key]|]; cbn [After.through_pointer After.through];
      [apply P|apply After_on_counters_keeps|apply P].
Qed.

Lemma Before_writes_counters_only op g r final out :
  Before.run op g = Ok (r, final, out) ->
  Before.radius final = Before.radius g.
Proof.
  assert (P : forall A (c : outcome A) (x : A) g' o,
            @pure Before.Globals A c g = Ok (x, g', o) ->
            Before.radius g' = Before.radius g).
  { intros A c x g' o. unfold pure. destruct c; cbn; [|discriminate].
    now intros [= _ <- _]. }
  assert (Q : forall (c : outcome (list token)) x g' o,
            @printing Before.Globals c g = Ok (x, g', o) ->
            Before.radius g' = Before.radius g).
  { intros c x g' o. unfold printing. destruct c; cbn; [|discriminate].
    now intros [= _ <- _]. }
  destruct op as [ | | | | | | | | | | | | | | |ptr| | | | | | ];
    cbn [Before.run Before.result] in *;
    try apply P; try apply Q; try apply Before_on_counters_keeps.
  - unfold Before.reading_radius. now intros [= _ <- _].
  - destruct ptr as [[v|key]|]; cbn [Before.through_pointer Before.through];
      [apply P|apply Before_on_counters_keeps|apply P].
Qed.




(** * Further properties of the code *)

(** ** The counters map: writes, reads and counting *)

Section CountersMore.

Implicit Types (name other : string) (counters : gmap string Z).

Lemma setCounter_insert name value counters :
  After.setCounter name value counters = <[name := value]> counters.
Proof.
  unfold After.setCounter, subscript.
  destruct (counters !! name); [reflexivity|apply insert_insert_eq].
Qed.

Lemma getCounterSafe_value name counters :
  After.getCounterSafe name counters
  = (default 0 (counters !! name), counters).
Proof.
  unfold After.getCounterSafe. now destruct (counters !! name).
Qed.

Lemma incrementCounterSafe_inv name counters counters' :
  After.incrementCounterSafe name counters = Ok counters' ->
  counters' = <[name := default 0 (counters !! name) + 1]> counters.
Proof.
  unfold After.incrementCounterSafe, subscript.
  destruct (counters !! name) as [v|] eqn:E; cbn.
  - unfold Int.add. destruct (Int.checked (v + 1)) as [r|] eqn:Er; cbn;
      [|discriminate].
    apply Int_checked_inv in Er as [-> _]. now intros [= <-].
  - intros [= <-]. apply insert_insert_eq.
Qed.

(** What [setCounter] writes, [getCounterSafe] reads back, without touching
    the map; the other counters read as before; and a second write to the
    same name replaces the first. *)
Theorem setCounter_getCounterSafe_round_trip name value counters :
  After.getCounterSafe name (After.setCounter name value counters)
  = (value, After.setCounter name value counters)
  /\ (forall other, other <> name ->
        fst (After.getCounterSafe other (After.setCounter name value counters))
        = fst (After.getCounterSafe other counters))
  /\ (forall value',
        After.setCounter name value' (After.setCounter name value counters)
        = After.setCounter name value' counters).
Proof.
  rewrite !setCounter_insert. split; [|split].
  - now rewrite getCounterSafe_value, lookup_insert_eq.
  - intros other H. rewrite !getCounterSafe_value. cbn.
    now rewrite lookup_insert_ne by congruence.
  - intros value'. rewrite !setCounter_insert. apply insert_insert_eq.
Qed.

Lemma setCounter_getCounterSafe_round_trip_witness :
  "misses" <> "hits"
  /\ fst (After.getCounterSafe "misses"
            (After.setCounter "hits" 7 {["misses" := 3]}))
     = fst (After.getCounterSafe "misses" {["misses" := 3]}).
Proof.
  split; [discriminate|].
  apply (proj1 (proj2 (setCounter_getCounterSafe_round_trip
                         "hits" 7 {["misses" := 3]}))).
  discriminate.
Defined.

(** After a defined [incrementCounterSafe(name)], [getCounterSafe(name)]
    reads one more than before (1 for a name that was missing), every other
    counter is what it was, and the only name that can be new is [name]. *)
Theorem incrementCounterSafe_then_read name counters counters' :
  After.incrementCounterSafe name counters = Ok counters' ->
  fst (After.getCounterSafe name counters')
  = fst (After.getCounterSafe name counters) + 1
  /\ (forall other, other <> name -> counters' !! other = counters !! other)
  /\ dom counters' = {[name]} ∪ dom counters.
Proof.
  intros H. apply incrementCounterSafe_inv in H as ->.
  rewrite !getCounterSafe_value. cbn. split; [|split].
  - now rewrite lookup_insert_eq.
  - intros other Hne. now rewrite lookup_insert_ne by congruence.
  - apply dom_insert_L.
Qed.

Lemma incrementCounterSafe_then_read_witness :
  After.incrementCounterSafe "hits" {["hits" := 41]}
  = Ok (<["hits" := 42]> {["hits" := 41]})
  /\ fst (After.getCounterSafe "hits" (<["hits" := 42]> {["hits" := 41]}))
     = fst (After.getCounterSafe "hits" {["hits" := 41]}) + 1.
Proof.
  assert (H : After.incrementCounterSafe "hits" {["hits" := 41]}
              = Ok (<["hits" := 42]> {["hits" := 41]})).
  { apply (incrementCounterSafe_present _ _ 41);
      [apply lookup_singleton_eq|unfold Int.min, Int.max; lia]. }
  split; [exact H|].
  exact (proj1 (incrementCounterSafe_then_read _ _ _ H)).
Defined.

Lemma increment_times_present k name counters v :
  counters !! name = Some v ->
  Int.min <= v -> v + Z.of_nat k <= Int.max ->
  increment_times k name counters = Ok (<[name := v + Z.of_nat k]> counters).
Proof.
  revert counters v. induction k as [|k IH]; intros counters v Hv Hmin Hmax.
  - cbn. rewrite Z.add_0_r. now rewrite insert_id.
  - cbn [increment_times].
    rewrite (incrementCounterSafe_present _ _ v) by (trivial; lia). cbn.
    rewrite (IH _ (v + 1)); [|apply lookup_insert_eq|lia|lia].
    rewrite insert_insert_eq. do 2 f_equal. lia.
Qed.

Lemma increment_times_snoc k name counters :
  increment_times (S k) name counters
  = (counters1 ← increment_times k name counters;
     After.incrementCounterSafe name counters1).
Proof.
  revert counters. induction k as [|k IH]; intros counters.
  - cbn. now destruct (After.incrementCounterSafe name counters).
  - change (increment_times (S (S k)) name counters)
      with (c1 ← After.incrementCounterSafe name counters;
            increment_times (S k) name c1).
    cbn [increment_times].
    destruct (After.incrementCounterSafe name counters) as [c1|]; cbn;
      [|reflexivity].
    apply IH.
Qed.

(** Counting works: [k] calls of [incrementCounterSafe(name)] on a map
    without [name] leave exactly [k] under [name], for every [k] from 1 to
    [INT_MAX]; one more call then overflows. *)
Theorem increment_times_counts k name counters :
  counters !! name = None ->
  (0 < k)%nat -> Z.of_nat k <= Int.max ->
  increment_times k name counters = Ok (<[name := Z.of_nat k]> counters)
  /\ (Z.of_nat k = Int.max ->
      increment_times (S k) name counters = Undefined SignedOverflow).
Proof.
  intros Hnone Hk Hmax. destruct k as [|k]; [lia|].
  assert (Hstep : forall j, 1 + Z.of_nat j <= Int.max ->
            increment_times (S j) name counters
            = Ok (<[name := 1 + Z.of_nat j]> counters)).
  { intros j Hj. cbn [increment_times].
    rewrite incrementCounterSafe_missing by assumption. cbn.
    rewrite (increment_times_present j name _ 1);
      [|apply lookup_insert_eq|unfold Int.min; lia|lia].
    now rewrite insert_insert_eq. }
  split.
  - rewrite Hstep by lia. do 2 f_equal. lia.
  - intros Hlast. rewrite increment_times_snoc, Hstep by lia. cbn.
    apply incrementCounterSafe_saturated.
    rewrite lookup_insert_eq. f_equal. lia.
Qed.

Lemma increment_times_counts_witness :
  (∅ : gmap string Z) !! "hits" = None
  /\ (0 < 3)%nat /\ Z.of_nat 3 <= Int.max
  /\ increment_times 3 "hits" ∅ = Ok (<["hits" := Z.of_nat 3]> ∅).
Proof.
  split; [apply lookup_empty|]. split; [lia|].
  split; [unfold Int.max; lia|].
  apply (proj1 (increment_times_counts 3 "hits" ∅ (lookup_empty _)
                  ltac:(lia) ltac:(unfold Int.max; lia))).
Defined.

(** The map stays a map of [int]s: a defined increment and a write of an
    [int] keep the invariant, and on such a map [getCounterSafe] returns an
    [int]. *)
Theorem counters_stay_int name value counters :
  counters_wf counters ->
  (forall counters', After.incrementCounterSafe name counters = Ok counters' ->
                     counters_wf counters')
  /\ (Int.min <= value <= Int.max ->
      counters_wf (After.setCounter name value counters))
  /\ Int.min <= fst (After.getCounterSafe name counters) <= Int.max
  /\ counters_wf (snd (Before.getCounter name counters)).
Proof.
  intros Hwf. split; [|split; [|split]].
  - intros counters'. now apply incrementCounterSafe_wf.
  - intros Hv. rewrite setCounter_insert. now apply map_Forall_insert_2.
  - rewrite getCounterSafe_value. cbn.
    destruct (counters !! name) as [v|] eqn:E; cbn.
    + exact (Hwf name v E).
    + unfold Int.min, Int.max. lia.
  - unfold Before.getCounter, subscript.
    destruct (counters !! name); cbn; [assumption|].
    apply map_Forall_insert_2; [unfold Int.min, Int.max; lia|assumption].
Qed.

Lemma counters_stay_int_witness :
  counters_wf {["hits" := 41]}
  /\ Int.min <= 7 <= Int.max
  /\ counters_wf (After.setCounter "hits" 7 {["hits" := 41]}).
Proof.
  assert (W : counters_wf {["hits" := 41]}).
  { apply map_Forall_singleton. unfold Int.min, Int.max. lia. }
  split; [exact W|]. split; [unfold Int.min, Int.max; lia|].
  apply (proj1 (proj2 (counters_stay_int "hits" 7 _ W))).
  unfold Int.min, Int.max. lia.
Defined.

(** The read of before.cpp writes: after [getCounter(name)] the map holds
    [name], with the value returned; a missing name makes the map one entry
    larger; a second read returns the same value and changes nothing more. *)
Theorem getCounter_inserts_once name counters :
  snd (Before.getCounter name counters) !! name
  = Some (fst (Before.getCounter name counters))
  /\ dom (snd (Before.getCounter name counters)) = {[name]} ∪ dom counters
  /\ (counters !! name = None ->
      size (snd (Before.getCounter name counters)) = S (size counters))
  /\ Before.getCounter name (snd (Before.getCounter name counters))
     = Before.getCounter name counters
  /\ After.getCounterSafe name (snd (Before.getCounter name counters))
     = Before.getCounter name counters.
Proof.
  unfold Before.getCounter, After.getCounterSafe, subscript.
  destruct (counters !! name) as [v|] eqn:E; cbn.
  - rewrite E. split; [reflexivity|]. split.
    + apply set_eq. intros k. rewrite elem_of_union, elem_of_singleton.
      split; [tauto|]. intros [->|H]; [|assumption].
      apply elem_of_dom. eauto.
    + split; [discriminate|]. split; reflexivity.
  - rewrite lookup_insert_eq. split; [reflexivity|].
    split; [apply dom_insert_L|].
    split; [intros _; now apply map_size_insert_None|].
    split; reflexivity.
Qed.

Lemma getCounter_inserts_once_witness :
  (∅ : gmap string Z) !! "hits" = None
  /\ size (snd (Before.getCounter "hits" ∅)) = S (size (∅ : gmap string Z)).
Proof.
  split; [apply lookup_empty|].
  apply (proj1 (proj2 (proj2 (getCounter_inserts_once "hits" ∅)))).
  apply lookup_empty.
Defined.

End CountersMore.

(** ** Macros against templates *)

Lemma post_increment_x_value (s : Locals.t) :
  Int.min <= Locals.x s < Int.max ->
  Locals.post_increment_x s
  = Ok (Locals.x s,
        {| Locals.x := Locals.x s + 1; Locals.y := Locals.y s;
           Locals.calls := Locals.calls s |}).
Proof.
  intros H. unfold Locals.post_increment_x, Int.add.
  now rewrite Int_checked_ok by lia.
Qed.

(** For every pair of locals, [max_of(x++, y)] returns the maximum of the
    old [x] and [y] and increments [x] once.  [MAX(x++, y)] does the same
    only when [x <= y]; when [x > y] it returns [x + 1] and leaves [x + 2]. *)
Theorem MAX_evaluates_its_argument_twice (s : Locals.t) :
  Int.min <= Locals.x s -> Locals.x s + 2 <= Int.max ->
  After.call2 After.max_of Locals.post_increment_x Locals.read_y s
  = Ok (Z.max (Locals.x s) (Locals.y s),
        {| Locals.x := Locals.x s + 1; Locals.y := Locals.y s;
           Locals.calls := Locals.calls s |})
  /\ (Locals.x s <= Locals.y s ->
      Before.MAX Locals.post_increment_x Locals.read_y s
      = After.call2 After.max_of Locals.post_increment_x Locals.read_y s)
  /\ (Locals.y s < Locals.x s ->
      Before.MAX Locals.post_increment_x Locals.read_y s
      = Ok (Locals.x s + 1,
            {| Locals.x := Locals.x s + 2; Locals.y := Locals.y s;
               Locals.calls := Locals.calls s |})).
Proof.
  intros Hmin Hmax.
  unfold After.call2, Before.MAX.
  rewrite post_increment_x_value by lia. cbn.
  rewrite max_of_int. split; [reflexivity|]. split; intros H.
  - destruct (Locals.x s >? Locals.y s) eqn:E;
      [rewrite Z.gtb_ltb in E; apply Z.ltb_lt in E; lia|].
    rewrite Z.max_r by lia. reflexivity.
  - destruct (Locals.x s >? Locals.y s) eqn:E;
      [|rewrite Z.gtb_ltb in E; apply Z.ltb_ge in E; lia].
    rewrite post_increment_x_value by (cbn; lia). cbn.
    replace (Locals.x s + 1 + 1) with (Locals.x s + 2) by lia.
    reflexivity.
Qed.

Lemma MAX_evaluates_its_argument_twice_witness :
  Int.min <= 9 /\ 9 + 2 <= Int.max /\ 4 < 9
  /\ Before.MAX Locals.post_increment_x Locals.read_y
       {| Locals.x := 9; Locals.y := 4; Locals.calls := 0 |}
     = Ok (9 + 1, {| Locals.x := 9 + 2; Locals.y := 4; Locals.calls := 0 |}).
Proof.
  split; [unfold Int.min; lia|]. split; [unfold Int.max; lia|].
  split; [lia|].
  apply (proj2 (proj2 (MAX_evaluates_its_argument_twice
    {| Locals.x := 9; Locals.y := 4; Locals.calls := 0 |}
    ltac:(unfold Int.min; cbn; lia) ltac:(unfold Int.max; cbn; lia)))).
  cbn. lia.
Defined.

(** On arguments without side effects the macro and the template agree:
    both return the maximum and leave the locals alone. *)
Theorem MAX_agrees_with_max_of_on_pure_arguments {S}
  (a b : expression S Z) (s : S) (va vb : Z) :
  yields a s va -> yields b s vb ->
  Before.MAX a b s = Ok (Z.max va vb, s)
  /\ After.call2 After.max_of a b s = Ok (Z.max va vb, s).
Proof.
  unfold yields. intros Ha Hb. unfold Before.MAX, After.call2.
  rewrite Ha. cbn. rewrite Hb. cbn. rewrite max_of_int. split; [|reflexivity].
  rewrite Z.gtb_ltb. destruct (vb <? va) eqn:E.
  - apply Z.ltb_lt in E. rewrite Ha. do 2 f_equal. lia.
  - apply Z.ltb_ge in E. rewrite Hb. do 2 f_equal. lia.
Qed.

Lemma MAX_agrees_with_max_of_on_pure_arguments_witness :
  yields Locals.read_y {| Locals.x := 1; Locals.y := 8; Locals.calls := 0 |} 8
  /\ Before.MAX Locals.read_y Locals.read_y
       {| Locals.x := 1; Locals.y := 8; Locals.calls := 0 |}
     = Ok (Z.max 8 8, {| Locals.x := 1; Locals.y := 8; Locals.calls := 0 |}).
Proof.
  split; [reflexivity|].
  apply (MAX_agrees_with_max_of_on_pure_arguments
           Locals.read_y Locals.read_y _ 8 8); reflexivity.
Defined.

(** [SQUARE(e)] evaluates its argument twice, [square(e)] once.  For an
    argument that yields [v] and has the effect [f] on the locals,
    [square(e)] gives the value of [v * v] after one effect, whatever the
    argument is.  [SQUARE(e)] gives it after two effects when the effects
    are made inside a function call, as for [expensiveComputation()], which
    is called twice; when the argument modifies a scalar itself, the two
    unsequenced modifications make the macro undefined. *)
Theorem SQUARE_evaluates_its_argument_twice {S}
  (e : macro_argument S Z) (f : S -> S) (v : Z) :
  (forall s, evaluate e s = Ok (v, f s)) ->
  forall s,
    After.call1 After.square (evaluate e) s = (r ← Int.mul v v; Ok (r, f s))
    /\ (modifies_scalar e = false ->
        Before.SQUARE e s = (r ← Int.mul v v; Ok (r, f (f s))))
    /\ (modifies_scalar e = true ->
        Before.SQUARE e s = Undefined UnsequencedModification).
Proof.
  intros He s. unfold Before.SQUARE, After.call1, After.square.
  rewrite He. cbn. split; [reflexivity|].
  split; intros ->; [|reflexivity].
  rewrite He. cbn. reflexivity.
Qed.

Lemma SQUARE_evaluates_its_argument_twice_witness :
  Before.SQUARE {| evaluate := Locals.call_expensiveComputation;
                   modifies_scalar := false |}
    {| Locals.x := 5; Locals.y := 3; Locals.calls := 0 |}
  = Ok (1764, {| Locals.x := 5; Locals.y := 3; Locals.calls := 2 |})
  /\ After.call1 After.square Locals.call_expensiveComputation
       {| Locals.x := 5; Locals.y := 3; Locals.calls := 0 |}
     = Ok (1764, {| Locals.x := 5; Locals.y := 3; Locals.calls := 1 |})
  /\ Before.SQUARE
       {| evaluate := fun s =>
            Ok (42, {| Locals.x := 7; Locals.y := Locals.y s;
                       Locals.calls := Locals.calls s |});
          modifies_scalar := true |}
       {| Locals.x := 5; Locals.y := 3; Locals.calls := 0 |}
     = Undefined UnsequencedModification.
Proof.
  split; [|split]; [| |
    exact (proj2 (proj2 (SQUARE_evaluates_its_argument_twice
      {| evaluate := fun s =>
           Ok (42, {| Locals.x := 7; Locals.y := Locals.y s;
                      Locals.calls := Locals.calls s |});
         modifies_scalar := true |}
      (fun s => {| Locals.x := 7; Locals.y := Locals.y s;
                   Locals.calls := Locals.calls s |})
      42 (fun s => eq_refl)
      {| Locals.x := 5; Locals.y := 3; Locals.calls := 0 |})) eq_refl)].
  all: destruct (SQUARE_evaluates_its_argument_twice
              {| evaluate := Locals.call_expensiveComputation;
                 modifies_scalar := false |}
              (fun s => {| Locals.x := Locals.x s; Locals.y := Locals.y s;
                           Locals.calls := S (Locals.calls s) |})
              expensiveComputation (fun s => eq_refl)
              {| Locals.x := 5; Locals.y := 3; Locals.calls := 0 |})
    as (Hone & Htwo & _).
  - exact (Htwo eq_refl).
  - exact Hone.
Defined.

(** ** SafeContainer: the accessors against each other *)

Section SafeContainerMore.

Context {T : Type}.

Implicit Types c : After.SafeContainer.t T.

(** The unchecked and the checked accessor agree inside the bounds and
    part outside: there [at] is undefined and [get] is [nullopt].  [front]
    is [at(0)], undefined on an empty container; and [empty()] holds exactly
    when [size()] is 0. *)
Theorem SafeContainer_accessors_agree c index :
  0 <= index ->
  (index < After.SafeContainer.size c ->
   exists x, After.SafeContainer.at_ index c = Ok x
             /\ After.SafeContainer.get index c = Ok (Some x))
  /\ (After.SafeContainer.size c <= index ->
      After.SafeContainer.at_ index c = Undefined OutOfRange
      /\ After.SafeContainer.get index c = Ok None)
  /\ After.SafeContainer.front c = After.SafeContainer.at_ 0 c
  /\ (After.SafeContainer.empty c = true <-> After.SafeContainer.size c = 0)
  /\ (After.SafeContainer.empty c = true ->
      After.SafeContainer.front c = Undefined OutOfRange).
Proof.
  intros H0.
  unfold After.SafeContainer.at_, After.SafeContainer.get,
    After.SafeContainer.size, After.SafeContainer.front,
    After.SafeContainer.empty.
  split; [|split; [|split; [|split]]].
  - intros H.
    destruct (vector_index_in_range (After.SafeContainer.data c) index)
      as (x & _ & Hx); [lia|].
    exists x. split; [assumption|].
    destruct (_ <=? index) eqn:E; [apply Z.leb_le in E; lia|].
    now rewrite Hx.
  - intros H. split; [now apply vector_index_past_end|].
    destruct (_ <=? index) eqn:E; [reflexivity|apply Z.leb_gt in E; lia].
  - now destruct (After.SafeContainer.data c).
  - unfold vector_size. destruct (After.SafeContainer.data c); cbn;
      split; (congruence || lia).
  - destruct (After.SafeContainer.data c); [reflexivity|discriminate].
Qed.

End SafeContainerMore.

Lemma SafeContainer_accessors_agree_witness :
  0 <= 2
  /\ 2 < After.SafeContainer.size {| After.SafeContainer.data := [10; 20; 30] |}
  /\ exists x,
       After.SafeContainer.at_ 2 {| After.SafeContainer.data := [10; 20; 30] |}
       = Ok x
       /\ After.SafeContainer.get 2
            {| After.SafeContainer.data := [10; 20; 30] |}
          = Ok (Some x).
Proof.
  split; [lia|]. split; [reflexivity|].
  apply (proj1 (SafeContainer_accessors_agree
                  {| After.SafeContainer.data := [10; 20; 30] |} 2
                  ltac:(lia))).
  reflexivity.
Defined.

(** ** The average of [int] elements *)

Lemma total_app (l1 l2 : list Z) : total (l1 ++ l2) = total l1 + total l2.
Proof.
  unfold total. induction l1 as [|x l1 IH]; cbn; [reflexivity|].
  rewrite IH. lia.
Qed.

Lemma total_between (items : list Z) lo hi :
  Forall (fun x => lo <= x <= hi) items ->
  vector_size items * lo <= total items <= vector_size items * hi.
Proof.
  unfold vector_size, total. induction 1 as [|x rest Hx _ IH]; cbn [length foldr].
  - lia.
  - rewrite Nat2Z.inj_succ. lia.
Qed.

Lemma quot_between n s lo hi :
  0 < n -> n * lo <= s <= n * hi -> lo <= Z.quot s n <= hi.
Proof.
  intros Hn Hs. destruct (Z_lt_le_dec s 0) as [Hneg|Hpos].
  - rewrite <- (Z.opp_involutive s), Z.quot_opp_l by lia.
    rewrite Z.quot_div_nonneg by lia.
    assert (- hi <= - s / n <= - lo); [|lia]. split.
    + apply Z.div_le_lower_bound; lia.
    + apply Z.div_le_upper_bound; lia.
  - rewrite Z.quot_div_nonneg by lia. split.
    + apply Z.div_le_lower_bound; lia.
    + apply Z.div_le_upper_bound; lia.
Qed.

(** The average of [int] elements lies between any two bounds of the
    elements, whenever the running sums stay within [int] and there are at
    most [INT_MAX] elements. *)
Theorem SafeContainer_average_between_bounds (c : After.SafeContainer.t Z)
  lo hi :
  After.SafeContainer.data c <> [] ->
  running_sums_in_int (After.SafeContainer.data c) ->
  After.SafeContainer.size c <= Int.max ->
  Forall (fun x => lo <= x <= hi) (After.SafeContainer.data c) ->
  exists q, After.SafeContainer.average int_numeric c = Ok (Some q)
            /\ lo <= q <= hi.
Proof.
  intros Hne Hsums Hsize Hall. eexists. split.
  - now apply average_int_exact.
  - apply quot_between; [now apply size_positive|].
    now apply total_between.
Qed.

Lemma SafeContainer_average_between_bounds_witness :
  After.SafeContainer.data {| After.SafeContainer.data := [7; 8; 9] |} <> []
  /\ running_sums_in_int [7; 8; 9]
  /\ Forall (fun x => 7 <= x <= 9) [7; 8; 9]
  /\ exists q,
       After.SafeContainer.average int_numeric
         {| After.SafeContainer.data := [7; 8; 9] |} = Ok (Some q)
       /\ 7 <= q <= 9.
Proof.
  assert (F : Forall (fun x => 7 <= x <= 9) [7; 8; 9])
    by (repeat constructor; lia).
  split; [discriminate|]. split; [exact running_sums_7_8_9|].
  split; [exact F|].
  apply (SafeContainer_average_between_bounds
           {| After.SafeContainer.data := [7; 8; 9] |} 7 9);
    [discriminate|exact running_sums_7_8_9|discriminate|exact F].
Defined.

Lemma vector_index_middle {A} (done rest : list A) (x : A) :
  vector_index (done ++ x :: rest) (vector_size done) = Ok x.
Proof.
  unfold vector_index, vector_size.
  destruct (Z.of_nat (length done) <? 0) eqn:E; [apply Z.ltb_lt in E; lia|].
  rewrite Nat2Z.id, list_lookup_middle by reflexivity. reflexivity.
Qed.

Lemma UnsafeContainer_accumulate (c : Before.UnsafeContainer.t)
  (done rest : list Z) sum :
  Before.UnsafeContainer.data c = done ++ rest ->
  (forall k, (k <= length rest)%nat ->
             Int.min <= sum + total (take k rest) <= Int.max) ->
  Before.UnsafeContainer.accumulate (length rest) (vector_size done) sum c
  = Ok (sum + total rest).
Proof.
  revert done sum. induction rest as [|x rest IH]; intros done sum Hdata H.
  - cbn. f_equal. unfold total. cbn. lia.
  - cbn [length Before.UnsafeContainer.accumulate].
    rewrite Hdata, vector_index_middle. cbn.
    unfold Int.add. rewrite Int_checked_ok.
    + cbn [mbind outcome_bind].
      replace (vector_size done + 1) with (vector_size (done ++ [x]))
        by (unfold vector_size; rewrite length_app; cbn; lia).
      rewrite IH.
      * f_equal. unfold total. cbn. lia.
      * now rewrite Hdata, <- app_assoc.
      * intros k Hk. specialize (H (S k)). unfold total in *. cbn in H. lia.
    + specialize (H 1%nat). unfold total in H. cbn in H.
      rewrite take_0 in H. cbn in H. lia.
Qed.

Lemma UnsafeContainer_average_value (items : list Z) :
  items <> [] -> running_sums_in_int items ->
  Before.UnsafeContainer.average
    {| Before.UnsafeContainer.data := items;
       Before.UnsafeContainer.count := vector_size items |}
  = Ok (Int.of_size (Size.of_int (total items) / vector_size items)).
Proof.
  intros Hne Hsums.
  pose proof (UnsafeContainer_accumulate
                {| Before.UnsafeContainer.data := items;
                   Before.UnsafeContainer.count := vector_size items |}
                [] items 0 eq_refl) as Hacc.
  change (vector_size []) with 0 in Hacc. rewrite Z.add_0_l in Hacc.
  unfold Before.UnsafeContainer.average.
  cbn [Before.UnsafeContainer.count].
  replace (Z.to_nat (vector_size items)) with (length items)
    by (unfold vector_size; now rewrite Nat2Z.id).
  rewrite Hacc by (intros k Hk; rewrite Z.add_0_l; now apply Hsums).
  cbn [mbind outcome_bind].
  destruct (vector_size items =? 0) eqn:E; [|reflexivity].
  apply Z.eqb_eq in E. unfold vector_size in E.
  destruct items; [congruence|cbn in E; lia].
Qed.



(** ** Containers: what is added and what comes back *)

Lemma container_filled_from (its : list (option Item)) (c : After.Container.t) :
  After.Container.items
    (foldl (fun c it => After.Container.add it c) c its)
  = After.Container.items c ++ its.
Proof.
  revert c. induction its as [|it its IH]; intros c; cbn.
  - now rewrite app_nil_r.
  - rewrite IH. cbn. now rewrite <- app_assoc.
Qed.

Lemma container_filled_items (its : list (option Item)) :
  After.Container.items (container_filled its) = its.
Proof. unfold container_filled. now rewrite container_filled_from. Qed.

(** The [Container] of after.cpp gives back what was added: after the
    items [its] were added in order, [get(i)] is the [i]-th of them for every
    position [i], one more [add] leaves those answers unchanged and puts the
    new pointer at position [size], and the position after that is out of
    range. *)
Theorem Container_add_get_round_trip (its : list (option Item))
  (it : option Item) (index : Z) :
  vector_size its < Int.max ->
  (0 <= index < vector_size its ->
   exists p, its !! Z.to_nat index = Some p
             /\ After.Container.get index (container_filled its) = Ok p
             /\ After.Container.get index
                  (After.Container.add it (container_filled its)) = Ok p)
  /\ After.Container.get (vector_size its)
       (After.Container.add it (container_filled its)) = Ok it
  /\ After.Container.get (vector_size its + 1)
       (After.Container.add it (container_filled its))
     = Undefined OutOfRange.
Proof.
  intros Hsize. unfold After.Container.get, After.Container.add.
  cbn [After.Container.items]. rewrite container_filled_items.
  assert (Hmod : forall i, 0 <= i <= vector_size its + 1 -> Size.of_int i = i).
  { intros i Hi. apply Size_of_int_nonneg.
    unfold Size.modulus, Int.max in *. lia. }
  split; [|split].
  - intros Hi. rewrite Hmod by lia.
    destruct (vector_index_in_range its index Hi) as (p & Hp & Hg).
    exists p. split; [assumption|]. split; [assumption|].
    unfold vector_index in *.
    destruct (index <? 0); [discriminate|].
    rewrite lookup_app_l by (unfold vector_size in Hi; lia).
    now rewrite Hp.
  - rewrite Hmod by (unfold vector_size; lia).
    apply (vector_index_middle its [] it).
  - rewrite Hmod by (unfold vector_size; lia).
    apply vector_index_past_end.
    unfold vector_size. rewrite length_app. cbn. lia.
Qed.

Lemma Container_add_get_round_trip_witness :
  vector_size [Some item; None] < Int.max
  /\ 0 <= 1 < vector_size [Some item; None]
  /\ exists p, [Some item; None] !! Z.to_nat 1 = Some p
       /\ After.Container.get 1 (container_filled [Some item; None]) = Ok p
       /\ After.Container.get 1
            (After.Container.add (Some item)
               (container_filled [Some item; None])) = Ok p.
Proof.
  assert (H : vector_size [Some item; None] < Int.max)
    by (unfold vector_size, Int.max; cbn; lia).
  split; [exact H|].
  split; [unfold vector_size; cbn; lia|].
  apply (proj1 (Container_add_get_round_trip
                  [Some item; None] (Some item) 1 H)).
  unfold vector_size; cbn; lia.
Defined.

Lemma container_filled_before_default (its : list (option Item)) :
  container_filled_before its = Before.Container.default.
Proof.
  unfold container_filled_before.
  induction its as [|it its IH]; [reflexivity|exact IH].
Qed.

(** The [Container] of before.cpp keeps nothing: whatever items were
    added, it still is the empty container, [get(0)] is the null pointer and
    [get] of any other index is undefined. *)
Theorem Container_before_never_stores (its : list (option Item)) (index : Z) :
  container_filled_before its = Before.Container.default
  /\ Before.Container.get 0 (container_filled_before its) = Ok None
  /\ (index <> 0 ->
      Before.Container.get index (container_filled_before its)
      = Undefined OutOfRange).
Proof.
  rewrite container_filled_before_default.
  split; [reflexivity|]. split; [reflexivity|].
  intros H. unfold Before.Container.get. cbn.
  destruct (index =? 0) eqn:E; [apply Z.eqb_eq in E; contradiction|reflexivity].
Qed.

Lemma Container_before_never_stores_witness :
  1 <> 0
  /\ Before.Container.get 1 (container_filled_before [Some item])
     = Undefined OutOfRange.
Proof.
  split; [discriminate|].
  apply (proj2 (proj2 (Container_before_never_stores [Some item] 1))).
  discriminate.
Defined.

(** ** Printing an element *)

(** [processIndexSafe] is defined for every vector and every index: in the
    bounds it prints the element, exactly as [processIndex] of before.cpp
    does; past the end it prints nothing, where [processIndex] is
    undefined. *)
Theorem processIndexSafe_never_reads_past_the_end (v : list Z) (index : Z) :
  0 <= index ->
  defined (After.processIndexSafe v index)
  /\ (index < vector_size v ->
      exists x, v !! Z.to_nat index = Some x
                /\ After.processIndexSafe v index = Ok [Num x]
                /\ Before.processIndex v index = Ok [Num x])
  /\ (vector_size v <= index ->
      After.processIndexSafe v index = Ok []
      /\ Before.processIndex v index = Undefined OutOfRange).
Proof.
  intros H0. unfold After.processIndexSafe, Before.processIndex.
  destruct (index <? vector_size v) eqn:E.
  - apply Z.ltb_lt in E.
    destruct (vector_index_in_range v index) as (x & Hx & Hi); [lia|].
    rewrite Hi. cbn. split; [now exists [Num x]|].
    split; [intros _; now exists x|lia].
  - apply Z.ltb_ge in E. split; [now exists []|]. split; [lia|].
    intros _. split; [reflexivity|].
    now rewrite vector_index_past_end.
Qed.

Lemma processIndexSafe_never_reads_past_the_end_witness :
  0 <= 5 /\ vector_size [10; 20] <= 5
  /\ After.processIndexSafe [10; 20] 5 = Ok []
  /\ Before.processIndex [10; 20] 5 = Undefined OutOfRange.
Proof.
  split; [lia|]. split; [unfold vector_size; cbn; lia|].
  apply (proj2 (proj2 (processIndexSafe_never_reads_past_the_end
                         [10; 20] 5 ltac:(lia)))).
  unfold vector_size; cbn; lia.
Defined.

(** ** GameState *)

Lemma applyMove_inv m (state state' : GameState.t) :
  GameState.applyMove m state = Ok state' ->
  GameState.score state' = GameState.score state + m
  /\ GameState.moves state' = GameState.moves state ++ [m]
  /\ Int.min <= GameState.score state + m <= Int.max.
Proof.
  unfold GameState.applyMove, Int.add.
  destruct (Int.checked _) as [r|] eqn:E; cbn; [|discriminate].
  apply Int_checked_inv in E as [-> H]. now intros [= <-].
Qed.

(** [applyMove] keeps the books: the move is appended to [moves], the
    earlier moves stay, and a score that was the sum of the moves still is.
    It is defined exactly when the new score is an [int]. *)
Theorem applyMove_keeps_score_in_step m (state : GameState.t) :
  (defined (GameState.applyMove m state)
   <-> Int.min <= GameState.score state + m <= Int.max)
  /\ forall state', GameState.applyMove m state = Ok state' ->
       GameState.moves state' = GameState.moves state ++ [m]
       /\ GameState.score state' = GameState.score state + m
       /\ (score_tracks_moves state -> score_tracks_moves state').
Proof.
  split.
  - split.
    + intros [state' H]. now apply applyMove_inv in H.
    + intros H. rewrite applyMove_in_range by assumption. now eexists.
  - intros state' H. apply applyMove_inv in H as (Hs & Hm & _).
    split; [assumption|]. split; [assumption|].
    unfold score_tracks_moves. intros Ht.
    rewrite Hs, Hm, total_app, Ht. unfold total. cbn. lia.
Qed.

Lemma applyMove_keeps_score_in_step_witness :
  GameState.applyMove 4 {| GameState.score := 3; GameState.moves := [3] |}
  = Ok {| GameState.score := 7; GameState.moves := [3; 4] |}
  /\ score_tracks_moves {| GameState.score := 3; GameState.moves := [3] |}
  /\ score_tracks_moves {| GameState.score := 7; GameState.moves := [3; 4] |}.
Proof.
  assert (H : GameState.applyMove 4
                {| GameState.score := 3; GameState.moves := [3] |}
              = Ok {| GameState.score := 7; GameState.moves := [3; 4] |})
    by reflexivity.
  assert (T : score_tracks_moves
                {| GameState.score := 3; GameState.moves := [3] |})
    by reflexivity.
  split; [exact H|]. split; [exact T|].
  exact (proj2 (proj2 (proj2 (applyMove_keeps_score_in_step 4 _) _ H)) T).
Defined.

(** [tryMoveSafe] is a faithful dry run of [applyMove]: it is defined
    exactly when [applyMove] on the caller's state is, and it returns [true]
    exactly when [applyMove] would leave a score that is not negative. *)
Theorem tryMoveSafe_predicts_applyMove (state : GameState.t) (move : Z) :
  (defined (After.tryMoveSafe state move)
   <-> defined (GameState.applyMove move state))
  /\ forall state', GameState.applyMove move state = Ok state' ->
       After.tryMoveSafe state move
       = Ok (negb (GameState.score state' <? 0), state)
       /\ Before.tryMove state move = After.tryMoveSafe state move.
Proof.
  unfold After.tryMoveSafe, Before.tryMove, call_by_value,
    After.tryMoveSafe_body, Before.tryMove_body.
  destruct (GameState.applyMove move state) as [state1|why] eqn:E; cbn.
  - split.
    + split; intros _; [now exists state1|].
      destruct (GameState.score state1 <? 0); now eexists.
    + intros state' [= <-].
      destruct (GameState.score state1 <? 0); split; reflexivity.
  - split; [|discriminate].
    split; intros [x Hx]; discriminate.
Qed.

Lemma tryMoveSafe_predicts_applyMove_witness :
  GameState.applyMove (-5) {| GameState.score := 3; GameState.moves := [3] |}
  = Ok {| GameState.score := -2; GameState.moves := [3; -5] |}
  /\ After.tryMoveSafe {| GameState.score := 3; GameState.moves := [3] |} (-5)
     = Ok (negb (-2 <? 0),
           {| GameState.score := 3; GameState.moves := [3] |}).
Proof.
  assert (H : GameState.applyMove (-5)
                {| GameState.score := 3; GameState.moves := [3] |}
              = Ok {| GameState.score := -2; GameState.moves := [3; -5] |})
    by reflexivity.
  split; [exact H|].
  exact (proj1 (proj2 (tryMoveSafe_predicts_applyMove _ _) _ H)).
Defined.

(** ** factorial and planRoute *)

(** [factorial(n)] is the mathematical factorial for [n] from 1 to 12, and
    from 13 on the product leaves [int]: the evaluation is undefined. *)
Theorem factorial_values n :
  (1 <= n <= 12 ->
   After.factorial_fuel (After.factorial_depth n) n
   = Some (Ok (product_up_to (Z.to_nat n))))
  /\ (13 <= n ->
      After.factorial_fuel (After.factorial_depth n) n
      = Some (Undefined SignedOverflow)).
Proof. split; [apply factorial_small|apply factorial_overflows]. Qed.

Lemma factorial_values_witness :
  1 <= 12 <= 12 /\ 13 <= 13
  /\ After.factorial_fuel (After.factorial_depth 12) 12 = Some (Ok 479001600)
  /\ After.factorial_fuel (After.factorial_depth 13) 13
     = Some (Undefined SignedOverflow).
Proof.
  split; [lia|]. split; [lia|]. split.
  - apply (proj1 (factorial_values 12)). lia.
  - apply (proj2 (factorial_values 13)). lia.
Defined.

(** The loop of [planRoute] in before.cpp does not look at [maxSteps]: it
    stops after exactly 1000 iterations, which needs fuel for 1001 tests of
    its condition, and for every [StepCount] that is more than [maxSteps]
    iterations, where [planRouteSafe] makes exactly [maxSteps]. *)
Theorem planRoute_ignores_maxSteps maxSteps fuel :
  ((1000 < fuel)%nat -> Before.planRoute fuel maxSteps = Some 1000%nat)
  /\ ((fuel <= 1000)%nat -> Before.planRoute fuel maxSteps = None)
  /\ (After.StepCount maxSteps -> (1000 < fuel)%nat ->
      exists before after,
        Before.planRoute fuel maxSteps = Some before
        /\ After.planRouteSafe fuel maxSteps = Some after
        /\ (after < before)%nat /\ after = Z.to_nat maxSteps).
Proof.
  split; [apply planRoute_makes_1000_iterations|]. split.
  - unfold Before.planRoute. intros H.
    assert (G : forall f i k, 0 <= i -> (Z.to_nat i + f <= 1000)%nat ->
                Before.planRoute_loop f i k = None).
    { induction f as [|f IH]; intros i k Hi Hf; [reflexivity|].
      cbn. destruct (i <? 1000) eqn:E; [|apply Z.ltb_ge in E; lia].
      apply IH; lia. }
    apply G; lia.
  - intros Hstep Hfuel.
    destruct Hstep as [z Hz]. pose proof (UChar_of_Z_range z) as Hstep.
    rewrite Hz in Hstep. unfold UChar.max in Hstep.
    exists 1000%nat, (Z.to_nat maxSteps).
    split; [now apply planRoute_makes_1000_iterations|].
    split; [|split; [lia|reflexivity]].
    unfold After.planRouteSafe.
    rewrite planRouteSafe_loop_terminates;
      rewrite ?Z.sub_0_r; unfold UChar.max; try lia.
    reflexivity.
Qed.

Lemma planRoute_ignores_maxSteps_witness :
  After.StepCount 200 /\ (1000 < 1001)%nat
  /\ Before.planRoute 1001 200 = Some 1000%nat
  /\ After.planRouteSafe 1001 200 = Some 200%nat.
Proof.
  assert (S200 : After.StepCount 200) by (exists 200; reflexivity).
  split; [exact S200|]. split; [lia|].
  destruct (proj2 (proj2 (planRoute_ignores_maxSteps 200 1001)) S200
              ltac:(lia)) as (b & a & Hb & Ha & _ & Heq).
  split.
  - rewrite Hb. f_equal.
    pose proof (proj1 (planRoute_ignores_maxSteps 200 1001) ltac:(lia)) as H.
    rewrite Hb in H. now injection H.
  - rewrite Ha, Heq. reflexivity.
Defined.

(** ** Counters under different names *)

(** Counters under different names do not influence each other: a write
    to [name] and an increment of [other], and two increments, give the same
    map in either order. *)
Theorem counters_under_different_names_commute (name other : string)
  (value : Z) (counters : gmap string Z) :
  name <> other ->
  After.incrementCounterSafe other (After.setCounter name value counters)
  = (counters1 ← After.incrementCounterSafe other counters;
     Ok (After.setCounter name value counters1))
  /\ (counters1 ← After.incrementCounterSafe name counters;
      After.incrementCounterSafe other counters1)
     = (counters1 ← After.incrementCounterSafe other counters;
        After.incrementCounterSafe name counters1).
Proof.
  intros Hne.
  assert (Step : forall n n' v (m : gmap string Z), n <> n' ->
            After.incrementCounterSafe n' (<[n := v]> m)
            = (m1 ← After.incrementCounterSafe n' m; Ok (<[n := v]> m1))).
  { intros n n' v m H. unfold After.incrementCounterSafe, subscript.
    rewrite lookup_insert_ne by assumption.
    destruct (m !! n') as [w|].
    - destruct (Int.add w 1) as [w'|]; cbn; [|reflexivity].
      f_equal. now apply insert_insert_ne.
    - cbn. f_equal. rewrite !insert_insert_eq.
      now apply insert_insert_ne. }
  split.
  - rewrite setCounter_insert, Step by assumption.
    destruct (After.incrementCounterSafe other counters); cbn; [|reflexivity].
    now rewrite setCounter_insert.
  - assert (Kind : forall n (m : gmap string Z) why,
              After.incrementCounterSafe n m = Undefined why ->
              why = SignedOverflow).
    { intros n m why. unfold After.incrementCounterSafe, subscript, Int.add,
        Int.checked.
      destruct (m !! n) as [w|]; [|discriminate].
      destruct (Int.in_range (w + 1)); cbn; [discriminate|congruence]. }
    destruct (After.incrementCounterSafe name counters) as [m1|why] eqn:E1;
      destruct (After.incrementCounterSafe other counters) as [m2|why'] eqn:E2;
      cbn.
    + pose proof (incrementCounterSafe_inv _ _ _ E1) as H1.
      pose proof (incrementCounterSafe_inv _ _ _ E2) as H2.
      rewrite H1 at 1. rewrite H2 at 1.
      rewrite (Step name other), (Step other name) by congruence.
      rewrite E1, E2. cbn. rewrite H1, H2. f_equal.
      now apply insert_insert_ne.
    + pose proof (incrementCounterSafe_inv _ _ _ E1) as H1.
      rewrite H1, (Step name other), E2 by congruence. reflexivity.
    + pose proof (incrementCounterSafe_inv _ _ _ E2) as H2.
      rewrite H2, (Step other name), E1 by congruence. reflexivity.
    + apply Kind in E1, E2. congruence.
Qed.

Lemma counters_under_different_names_commute_witness :
  "hits" <> "misses"
  /\ After.incrementCounterSafe "misses" (After.setCounter "hits" 7 ∅)
     = (counters1 ← After.incrementCounterSafe "misses" ∅;
        Ok (After.setCounter "hits" 7 counters1)).
Proof.
  split; [discriminate|].
  apply (proj1 (counters_under_different_names_commute
                  "hits" "misses" 7 ∅ ltac:(discriminate))).
Defined.
